(** * nytl: the convert facility and the reference-iteration adapter

    A shallow embedding of the two headers [nytl/convert.hpp] and
    [nytl/bits/referenceIteration.inl].  Both headers are template code:
    what they "do" is decided partly when a template is instantiated
    (which overload, which partial specialization, which branch of an
    [if constexpr], whether an expression is well-formed) and partly when
    the instantiated function runs.  The embedding keeps the two apart:

    - instantiation-time questions are boolean functions on a small
      universe of C++ types;
    - run-time behaviour is a function on values that returns an
      [outcome]: a value, undefined behaviour, a program the compiler
      rejects, or a loop that never finishes.

    Integer widths follow the LP64 data model ([unsigned] has 32 bits,
    [std::size_t] has 64 bits). *)

From Stdlib Require Import ZArith Bool List Lia.
From Stdlib Require Import Floats.SpecFloat.
From stdpp Require Import base decidable option list gmap.

Local Open Scope Z_scope.

#[local] Set Warnings "-register-all".

(** * Outcomes of instantiating and running a function *)

Inductive failure : Type :=
| UndefinedBehaviour   (* undefined behaviour at run time, e.g. control flows
                          off the end of a value-returning function *)
| Rejected             (* the program is rejected at instantiation time *)
| NonTermination       (* the call never returns (or not within the fuel) *)
| Exception.           (* the call throws *)

Inductive outcome (A : Type) : Type :=
| Returns (a : A)      (* the call returns [a] *)
| Fails (f : failure).

Arguments Returns {A} a.
Arguments Fails {A} f.

Abbreviation Undefined := (Fails UndefinedBehaviour).
Abbreviation IllFormed := (Fails Rejected).
Abbreviation Diverges := (Fails NonTermination).
Abbreviation Throws := (Fails Exception).

Definition obind {A B : Type} (m : outcome A) (k : A -> outcome B) : outcome B :=
  match m with
  | Returns a => k a
  | Fails f => Fails f
  end.

#[global] Instance outcome_ret : MRet outcome := @Returns.
#[global] Instance outcome_bind : MBind outcome := fun A B k m => obind m k.

Definition omap {A B : Type} (f : A -> B) (m : outcome A) : outcome B :=
  x ← m; Returns (f x).

Definition returned {A : Type} (m : outcome A) : option A :=
  match m with Returns a => Some a | _ => None end.

(** A function body as the list of its statements.  A body of a
    value-returning function that ends without reaching a [return] has
    undefined behaviour; a [static_assert] whose condition is false
    rejects the program. *)
Inductive stmt (A : Type) : Type :=
| ExprStmt {B : Type} (e : outcome B)   (* [e;] *)
| ReturnStmt (e : outcome A)            (* [return e;] *)
| StaticAssert (c : bool).              (* [static_assert(c, ...);] *)

Arguments ExprStmt {A B} e.
Arguments ReturnStmt {A} e.
Arguments StaticAssert {A} c.

Fixpoint run_body {A : Type} (b : list (stmt A)) : outcome A :=
  match b with
  | [] => Undefined
  | ExprStmt e :: b' => _ ← e; run_body b'
  | ReturnStmt e :: _ => e
  | StaticAssert c :: b' => if c then run_body b' else IllFormed
  end.

(** Evaluates a list of outcomes left to right and stops at the first one
    that is not a value. *)
Fixpoint sequence {A : Type} (ms : list (outcome A)) : outcome (list A) :=
  match ms with
  | [] => Returns []
  | m :: ms' => x ← m; xs ← sequence ms'; Returns (x :: xs)
  end.

(** * The convert facility, [nytl/convert.hpp] *)

Module Convert.

(** ** Types and values *)

(** Two user-side classes exercise the facility.  They stand for
<<
    class Opaque {
      int tag;
    public:
      Opaque() : tag(0) {}
      void set(int t) { tag = t; }
    };
    class Celsius {
      int deg;
    public:
      Celsius() : deg(0) {}
      void set(int d) { deg = d; }
      explicit operator int() const { return deg; }
    };
>>
    [Opaque] converts to nothing but itself; [Celsius] has a user-defined
    conversion operator to [int] and no constructor taking an [int]. *)
Inductive class_name : Type := Opaque | Celsius.

Inductive ty : Type :=
| TInt                          (* int *)
| TDouble                       (* double *)
| TClass (c : class_name)       (* a user-side class *)
| TArray (elem : ty) (len : N)  (* std::array<elem, len> *)
| TVector (elem : ty)           (* std::vector<elem> *)
| TList (elem : ty)             (* std::list<elem> *)
| TInitList (elem : ty).        (* std::initializer_list<elem> *)

#[global] Instance class_name_eq_dec : EqDecision class_name.
Proof. solve_decision. Defined.

#[global] Instance ty_eq_dec : EqDecision ty.
Proof. solve_decision. Defined.

(** A [double] is an IEEE-754 binary64 number, an [int] a 32-bit signed
    integer, a class object its single [int] member, and every sequence
    (array, vector, list, initializer list) the list of its elements in
    traversal order. *)
Inductive val : Type :=
| VInt (z : Z)
| VDouble (d : spec_float)
| VObj (c : class_name) (member : Z)
| VSeq (elems : list val).

Definition int_min : Z := - 2 ^ 31.
Definition int_max : Z := 2 ^ 31 - 1.

Definition in_int (z : Z) : bool := (int_min <=? z) && (z <=? int_max).

Fixpoint has_type (t : ty) (v : val) : bool :=
  match t, v with
  | TInt, VInt z => in_int z
  | TDouble, VDouble _ => true
  | TClass c, VObj c' z => bool_decide (c = c') && in_int z
  | TArray e len, VSeq l => (N.of_nat (length l) =? len)%N && forallb (has_type e) l
  | TVector e, VSeq l => forallb (has_type e) l
  | TList e, VSeq l => forallb (has_type e) l
  | TInitList e, VSeq l => forallb (has_type e) l
  | _, _ => false
  end.

(** The number of elements of a sequence value; [0] for anything else. *)
Definition size (v : val) : nat :=
  match v with VSeq l => length l | _ => 0%nat end.

(** Value-initialisation [T{}]: zero for scalars and members, [len]
    value-initialised elements for an array, the empty container
    otherwise. *)
Fixpoint value_init (t : ty) : val :=
  match t with
  | TInt => VInt 0
  | TDouble => VDouble (S754_zero false)
  | TClass c => VObj c 0
  | TArray e len => VSeq (replicate (N.to_nat len) (value_init e))
  | TVector _ => VSeq []
  | TList _ => VSeq []
  | TInitList _ => VSeq []
  end.

(** ** The language's native conversion, [static_cast] *)

Definition double_of_int (z : Z) : spec_float :=
  binary_normalize 53 1024 z 0 false.

(** Truncation toward zero; [None] for NaN and the infinities. *)
Definition truncate (d : spec_float) : option Z :=
  match d with
  | S754_zero _ => Some 0
  | S754_finite s m e =>
      let mag := if 0 <=? e then Z.pos m * 2 ^ e else Z.pos m / 2 ^ (- e) in
      Some (if s then - mag else mag)
  | _ => None
  end.

(** A [double] converts to an integer type by truncation when the
    truncated value fits the type, and with undefined behaviour
    otherwise. *)
Definition int_of_double (d : spec_float) : option Z :=
  match truncate d with
  | Some z => if in_int z then Some z else None
  | None => None
  end.

Definition size_max : Z := 2 ^ 64 - 1.

Definition size_of_double (d : spec_float) : option Z :=
  match truncate d with
  | Some z => if (0 <=? z) && (z <=? size_max) then Some z else None
  | None => None
  end.

Definition is_arith (t : ty) : bool :=
  match t with TInt | TDouble => true | _ => false end.

(** [static_cast_valid To From]: the expression
    [static_cast<To>(std::declval<From>())] is well-formed.  Every type
    copies; the arithmetic types convert to each other; [Celsius] converts
    to [int] by its conversion operator; [std::vector] and [std::list]
    have an explicit constructor that takes the number of elements and a
    constructor that takes a [std::initializer_list] of their element
    type. *)
Definition static_cast_valid (To From : ty) : bool :=
  if decide (To = From) then true
  else match To, From with
       | TInt, TDouble | TDouble, TInt => true
       | TInt, TClass Celsius => true
       | (TVector _ | TList _), (TInt | TDouble) => true
       | (TVector e | TList e), TInitList e' => bool_decide (e = e')
       | _, _ => false
       end.

(** A container of [n] value-initialised elements; a negative [int]
    wraps to a size beyond [max_size()], and the constructor throws. *)
Definition sized (e : val) (n : Z) : outcome val :=
  if 0 <=? n then Returns (VSeq (replicate (Z.to_nat n) e)) else Throws.

(** [static_cast<To>(v)] for [v] of type [From]. *)
Definition static_cast (To From : ty) (v : val) : outcome val :=
  if decide (To = From) then Returns v
  else match To, From, v with
       | TDouble, TInt, VInt z => Returns (VDouble (double_of_int z))
       | TInt, TDouble, VDouble d =>
           match int_of_double d with
           | Some z => Returns (VInt z)
           | None => Undefined
           end
       | TInt, TClass Celsius, VObj Celsius deg => Returns (VInt deg)
       | (TVector e | TList e), TInt, VInt n => sized (value_init e) n
       | (TVector e | TList e), TDouble, VDouble d =>
           match size_of_double d with
           | Some n => sized (value_init e) n
           | None => Undefined
           end
       | (TVector e | TList e), TInitList e', VSeq l =>
           if decide (e = e') then Returns (VSeq l) else IllFormed
       | _, _, _ => IllFormed
       end.

(** ** Instantiation time: overloads, guards, specializations *)

(** [lhs = convert(x)] in the loop of [containerCast]: [convert(x)] is
    the deferred overload, so the right-hand side is an [AutoCastable],
    which converts to any type whatsoever through its conversion function
    template.  The assignment is well-formed exactly when the destination
    element type has one candidate assignment to convert to.  Scalars,
    the sample classes, [std::array] and [std::initializer_list] only
    have the copy/move assignment;
    [std::vector] and [std::list] also declare
    [operator=(std::initializer_list<value_type>)], and the choice between
    the parameter types is then ambiguous. *)
Definition deferred_assignable (B : ty) : bool :=
  match B with
  | TVector _ | TList _ => false
  | _ => true
  end.

(** The element type of a type with [size()], [begin()] and [end()]. *)
Definition elem_type (t : ty) : option ty :=
  match t with
  | TArray e _ | TVector e | TList e | TInitList e => Some e
  | _ => None
  end.

(** [T{}] followed by [.resize(n)]: [std::array] and
    [std::initializer_list] have no [resize]. *)
Definition resizable (t : ty) : bool :=
  match t with
  | TVector _ | TList _ => true
  | _ => false
  end.

(** The implicit conversions between the types of the universe: the
    standard conversions, and the constructor of [std::vector] and
    [std::list] that takes a [std::initializer_list], which is not
    [explicit]. *)
Definition implicitly_convertible (To From : ty) : bool :=
  bool_decide (To = From) || (is_arith To && is_arith From) ||
  match To, From with
  | (TVector e | TList e), TInitList e' => bool_decide (e = e')
  | _, _ => false
  end.

(** *** The two overloads of [convert]

    Lines 32-36 declare [template<typename T, typename O> convert(const O&)]
    and lines 59-63 [template<typename O> convert(const O&)].  In the call
    [convert<T>(x)], with [x] of type [O], the one explicit argument is
    the [T] of the first template and the [O] of the second.  The first
    binds [const O&] to [x] exactly.  The second has the parameter
    [const T&]: it needs an implicit conversion from [O] to [T], and is an
    exact match too when [T] is [O].  Neither template is more
    specialized than the other (the [T] of the first is used in the return
    type only), so two exact matches are an ambiguous call. *)
Inductive rank : Type := Exact | Conversion | NotViable.

Definition rank_explicit (T O : ty) : rank := Exact.

Definition rank_deferred (T O : ty) : rank :=
  if decide (T = O) then Exact
  else if implicitly_convertible T O then Conversion
  else NotViable.

Inductive overload : Type := ExplicitTarget | DeferredTarget | Ambiguous.

(** Overload resolution for [convert<T>(x)], [x] of type [O]. *)
Definition resolve_convert (T O : ty) : overload :=
  match rank_explicit T O, rank_deferred T O with
  | Exact, Exact => Ambiguous
  | Exact, _ => ExplicitTarget
  | _, Exact => DeferredTarget
  | _, _ => Ambiguous
  end.

(** *** The guards of [arrayCast] and [containerCast] *)

(** Lines 69-70: [std::declval<std::array<T, I>>()[0] =
    convert<T>(std::declval<std::array<U, I>>()[0])].  The call must
    resolve; every type of the universe can be assigned from a value of
    its own type. *)
Definition arrayCast_guard (T U : ty) : bool :=
  match resolve_convert T U with
  | ExplicitTarget => true
  | _ => false
  end.

(** Lines 83-88: [T{}], [T.resize(U.size())], [T.end()], [U.end()] and
    the assignment of [convert] of the first element of [U] to the first
    element of [T]. *)
Definition containerCast_guard (T U : ty) : bool :=
  resizable T &&
  match elem_type T, elem_type U with
  | Some B, Some _ => deferred_assignable B
  | _, _ => false
  end.

(** *** [expressionValid] and the three aliases (lines 100-113, 133-134)

    [expressionValid<E, T...>] is [true] when [E<T...>] is a valid type:
    the arguments are handed to the alias [E] in the order given.  The
    aliases [ValidStaticCast] and [ValidContainerCast] declare their
    parameters as [<To, From>], [ValidArrayCast] as [<From, To, I>]. *)
Definition expressionValid (E : ty -> ty -> bool) (T1 T2 : ty) : bool := E T1 T2.

Definition ValidStaticCast (To From : ty) : bool := static_cast_valid To From.

Definition ValidContainerCast (To From : ty) : bool := containerCast_guard To From.

Definition ValidArrayCast (From To : ty) (len : N) : bool := arrayCast_guard To From.

(** Modelled from the spec: [nytl::void_t] comes from [nytl/tmpUtil.hpp],
    which is not among the sources.  The spec describes the facility as
    expression-validity dispatch; [ExpressionValidT] (lines 100-104) can
    only ever be [true] if [void_t<...>] of a valid type list is [void],
    which is the detection idiom. *)
Inductive meta_type : Type := MVoid | MType (t : ty).

#[global] Instance meta_type_eq_dec : EqDecision meta_type.
Proof. solve_decision. Defined.

Definition void_t (ts : list ty) : meta_type := MVoid.

Definition is_same (a b : meta_type) : bool := bool_decide (a = b).

(** The condition of the [static_assert] on line 125. *)
Definition static_assert_condition (From : ty) : bool :=
  is_same (void_t [From]) MVoid.

(** *** Which [Converter] is used (lines 116-139)

    Two partial specializations exist.  [Converter<From, To>] matches
    every pair.  The one for two [std::array]s of the same length with a
    valid [ValidArrayCast] is more specialized and is taken whenever it
    matches. *)
Inductive specialization : Type :=
| GeneralConverter
| ArrayConverter (From To : ty) (len : N).

Definition Converter_select (From To : ty) : specialization :=
  match From, To with
  | TArray F len, TArray T len' =>
      if bool_decide (len = len') && ValidArrayCast F T len
      then ArrayConverter F T len
      else GeneralConverter
  | _, _ => GeneralConverter
  end.

(** The [if constexpr] chain of [Converter<From, To>::call], lines
    121-125, with the arguments of [expressionValid] as written. *)
Inductive branch : Type :=
| StaticCastBranch
| ContainerCastBranch
| StaticAssertBranch.

Definition call_branch (From To : ty) : branch :=
  if expressionValid ValidStaticCast From To then StaticCastBranch
  else if expressionValid ValidContainerCast From To then ContainerCastBranch
  else StaticAssertBranch.

(** *** Does the definition of [convert<To, From>] instantiate?

    Everything a definition uses is instantiated with it, and an error
    there rejects the program.  [arrayCast] and [containerCast] return
    [auto], so naming them in a [decltype] instantiates their bodies too:
    that happens for the array specialization when it is selected and for
    the container test of [call] when its guard holds. *)
Fixpoint ty_depth (t : ty) : nat :=
  match t with
  | TArray e _ | TVector e | TList e | TInitList e => S (ty_depth e)
  | _ => O
  end.

Fixpoint instantiates_fuel (fuel : nat) (To From : ty) : bool :=
  match fuel with
  | O => false
  | S fuel' =>
      let containerCast_body T U :=
        match elem_type T, elem_type U with
        | Some B, Some A => instantiates_fuel fuel' B A
        | _, _ => false
        end in
      match Converter_select From To with
      | ArrayConverter F T _ => instantiates_fuel fuel' T F
      | GeneralConverter =>
          match call_branch From To with
          | StaticCastBranch => static_cast_valid To From
          | ContainerCastBranch =>
              containerCast_body From To &&
              containerCast_guard To From && containerCast_body To From
          | StaticAssertBranch => static_assert_condition From
          end
      end
  end.

Definition instantiates (To From : ty) : bool :=
  instantiates_fuel (S (ty_depth To + ty_depth From)) To From.

(** ** Run time: objects, the two loops, [Converter::call] *)

(** Objects live in a store and are named by their address.  A function
    that returns by value leaves its result in a new object. *)
Abbreviation store := (list val).

Definition alloc (σ : store) (v : val) : nat * store := (length σ, σ ++ [v]).

(** Reading an object through a reference; a dangling one is undefined
    behaviour. *)
Definition read_obj (σ : store) (a : nat) : outcome val :=
  match σ !! a with
  | Some v => Returns v
  | None => Undefined
  end.

(** [c[i]], [*it]: reading past the end is undefined behaviour. *)
Definition read_elem (σ : store) (a i : nat) : outcome val :=
  match σ !! a with
  | Some (VSeq l) =>
      match l !! i with
      | Some x => Returns x
      | None => Undefined
      end
  | _ => Undefined
  end.

(** [c[i] = y], [*it = y]. *)
Definition write_elem (σ : store) (a i : nat) (y : val) : outcome store :=
  match σ !! a with
  | Some (VSeq l) =>
      if decide (i < length l)%nat
      then Returns (<[a := VSeq (<[i := y]> l)]> σ)
      else Undefined
  | _ => Undefined
  end.

(** [c.size()], also the position of [c.end()]. *)
Definition seq_size (σ : store) (a : nat) : outcome nat :=
  match σ !! a with
  | Some (VSeq l) => Returns (length l)
  | _ => Undefined
  end.

(** [c.resize(n)]: new elements are value-initialised. *)
Definition seq_resize (σ : store) (a n : nat) (d : val) : outcome store :=
  match σ !! a with
  | Some (VSeq l) => Returns (<[a := VSeq (resize n d l)]> σ)
  | _ => Undefined
  end.

(** [unsigned] arithmetic wraps modulo [2^32]. *)
Definition uint_modulus : Z := 2 ^ 32.

Section Bodies.

(** [convert_elem A x] is [convert<B, A>(x)] for the element type [B] of
    the destination. *)
Variable convert_elem : ty -> val -> outcome val.

(** The call [convert<T>(x)] as [arrayCast] writes it. *)
Definition convert_call_elem (T O : ty) (x : val) : outcome val :=
  match resolve_convert T O with
  | ExplicitTarget => convert_elem O x
  | _ => IllFormed
  end.

(** Lines 74-75: [for(auto i = 0u; i < I; ++i) ret[i] = convert<T>(array[i]);]
    The counter [i] is an [unsigned], the bound [I] a [std::size_t]. *)
Fixpoint arrayCast_loop (T U : ty) (fuel : nat) (len : N) (array ret : nat)
    (i : Z) (σ : store) : outcome store :=
  match fuel with
  | O => Diverges
  | S fuel' =>
      if i <? Z.of_N len then
        x ← read_elem σ array (Z.to_nat i);
        y ← convert_call_elem T U x;
        σ' ← write_elem σ ret (Z.to_nat i) y;
        arrayCast_loop T U fuel' len array ret ((i + 1) mod uint_modulus) σ'
      else Returns σ
  end.

(** Lines 71-77, the body of [arrayCast<T>(const std::array<U, I>&)]. *)
Definition arrayCast_body (T U : ty) (len : N) (array : nat) (σ : store)
    : outcome (nat * store) :=
  let '(ret, σ0) := alloc σ (value_init (TArray T len)) in
  σ1 ← arrayCast_loop T U (S (N.to_nat len)) len array ret 0 σ0;
  Returns (ret, σ1).

(** Lines 95-96: [while(f != con.end())] assigns [convert] of the
    element at [f] to the element at [t] and advances both iterators.
    [convert(x)] builds an [AutoCastable] on the element; assigning it to
    an element of type [B] runs [convert<B, A>] on what it points to. *)
Fixpoint containerCast_loop (A : ty) (fuel : nat) (con ret : nat)
    (f t : nat) (σ : store) : outcome store :=
  match fuel with
  | O => Diverges
  | S fuel' =>
      e ← seq_size σ con;
      if decide (f = e) then Returns σ
      else
        x ← read_elem σ con f;
        y ← convert_elem A x;
        σ' ← write_elem σ ret t y;
        containerCast_loop A fuel' con ret (S f) (S t) σ'
  end.

(** Lines 89-98, the body of [containerCast<T>(const U&)]. *)
Definition containerCast_body (T U : ty) (con : nat) (σ : store)
    : outcome (nat * store) :=
  match elem_type T, elem_type U with
  | Some B, Some A =>
      let '(ret, σ0) := alloc σ (value_init T) in
      n ← seq_size σ0 con;
      σ1 ← seq_resize σ0 ret n (value_init B);
      σ2 ← containerCast_loop A (S n) con ret 0 0 σ1;
      Returns (ret, σ2)
  | _, _ => IllFormed
  end.

(** Lines 116-139: [Converter<From, To>::call(other)] of the selected
    specialization.  The last branch is the [static_assert]: when its
    condition holds the function ends without a [return]. *)
Definition Converter_call (To From : ty) (other : nat) (σ : store)
    : outcome (nat * store) :=
  match Converter_select From To with
  | ArrayConverter F T len => arrayCast_body T F len other σ
  | GeneralConverter =>
      match call_branch From To with
      | StaticCastBranch =>
          v ← read_obj σ other;
          w ← static_cast To From v;
          Returns (alloc σ w)
      | ContainerCastBranch =>
          if containerCast_guard To From
          then containerCast_body To From other σ
          else IllFormed
      | StaticAssertBranch =>
          run_body [StaticAssert (static_assert_condition From)]
      end
  end.

End Bodies.

(** Runs a function on a source held in a store of its own and reads the
    object it returns. *)
Definition on_value (body : nat -> store -> outcome (nat * store)) (v : val)
    : outcome val :=
  p ← body 0%nat [v];
  read_obj p.2 p.1.

(** The element conversions of a destination type: [convert] into its
    element type. *)
Fixpoint convert_run (To From : ty) (other : val) {struct To} : outcome val :=
  on_value
    (Converter_call
       (match To with
        | TArray B _ | TVector B | TList B | TInitList B => convert_run B
        | _ => fun _ _ => IllFormed
        end) To From) other.

Definition convert_elem_of (To : ty) : ty -> val -> outcome val :=
  match To with
  | TArray B _ | TVector B | TList B | TInitList B => convert_run B
  | _ => fun _ _ => IllFormed
  end.

(** Lines 32-36: [convert<T, O>(other)] returns
    [Converter<O, T>::call(other)]; [convert_at] is the call on an object
    of a store, [convert] the same on a value. *)
Definition convert_at (T O : ty) (other : nat) (σ : store)
    : outcome (nat * store) :=
  if instantiates T O
  then Converter_call (convert_elem_of T) T O other σ
  else IllFormed.

Definition convert (T O : ty) (other : val) : outcome val :=
  on_value (convert_at T O) other.

(** The call [convert<T>(x)], [x] of type [O], after overload resolution. *)
Definition convert_expr (T O : ty) (x : val) : outcome val :=
  match resolve_convert T O with
  | ExplicitTarget => convert T O x
  | _ => IllFormed
  end.

(** Lines 44-48 and 59-63: [convert(other)] returns an [AutoCastable]
    that points to [other]; its conversion function to [O] returns
    [convert<O, T>] of the object pointed to.  Two explicit template
    arguments leave only the first overload. *)
Record AutoCastable : Type := { object_ : nat }.

Definition convert_deferred (other : nat) : AutoCastable := {| object_ := other |}.

Definition AutoCastable_operator (O T : ty) (a : AutoCastable) (σ : store)
    : outcome (nat * store) :=
  convert_at O T (object_ a) σ.

(** The contexts that ask the [AutoCastable] returned by [convert(x)]
    for a value of type [O].  Initialising an object,
    [O y = convert(x);], or a parameter of type [O], runs the conversion
    function to [O].  Assigning to an object of type [O],
    [y = convert(x);], first has to choose an assignment operator of [O]
    for the [AutoCastable], which [deferred_assignable] decides; the
    conversion function then runs as before. *)
Inductive request : Type := Initialisation | Assignment.

Definition deferred_in (c : request) (O T : ty) (other : nat) (σ : store)
    : outcome (nat * store) :=
  match c with
  | Initialisation => AutoCastable_operator O T (convert_deferred other) σ
  | Assignment =>
      if deferred_assignable O
      then AutoCastable_operator O T (convert_deferred other) σ
      else IllFormed
  end.

(** The deferred form [convert(x)] and the direct form [convert<O>(x)],
    [x] of type [T], in a context that asks for an [O].  The direct form
    is a prvalue of type [O], which initialises and assigns to every
    [O]. *)
Definition deferred_request (c : request) (O T : ty) (x : val) : outcome val :=
  on_value (deferred_in c O T) x.

Definition direct_request (c : request) (O T : ty) (x : val) : outcome val :=
  convert_expr O T x.

(** The call [arrayCast<T>(array)], [array] a [std::array<U, I>]. *)
Definition arrayCast_at (T U : ty) (len : N) (array : nat) (σ : store)
    : outcome (nat * store) :=
  if arrayCast_guard T U && instantiates T U
  then arrayCast_body (convert_run T) T U len array σ
  else IllFormed.

Definition arrayCast (T U : ty) (len : N) (array : val) : outcome val :=
  on_value (arrayCast_at T U len) array.

(** The call [containerCast<T>(con)], [con] of type [U]. *)
Definition containerCast_wf (T U : ty) : bool :=
  containerCast_guard T U &&
  match elem_type T, elem_type U with
  | Some B, Some A => instantiates B A
  | _, _ => false
  end.

Definition containerCast_at (T U : ty) (con : nat) (σ : store)
    : outcome (nat * store) :=
  if containerCast_wf T U
  then containerCast_body (convert_elem_of T) T U con σ
  else IllFormed.

Definition containerCast (T U : ty) (con : val) : outcome val :=
  on_value (containerCast_at T U) con.

Definition vint (l : list Z) : val := VSeq (map VInt l).

(** ** What the claims speak about *)

(** A function of a source object is frame preserving when, run on any
    store, it leaves every object as it was and adds exactly one object:
    the value it computes from the source alone. *)
Definition frame_preserving (body : nat -> store -> outcome (nat * store)) : Prop :=
  forall (σ : store) (src : nat) (v : val),
    σ !! src = Some v ->
    body src σ = omap (alloc σ) (on_value body v).

(** The conversion operations of the header, run on an object of type
    [From] with the target type [To]. *)
Inductive conversion : Type :=
| ViaConvert          (* [convert<To, From>(x)] *)
| ViaAutoCastable     (* [To y = convert(x);] *)
| ViaContainerCast    (* [containerCast<To>(x)] *)
| ViaArrayCast.       (* [arrayCast<T>(x)], [To] being [std::array<T, I>] *)

Definition run_conversion (c : conversion) (To From : ty) (src : nat) (σ : store)
    : outcome (nat * store) :=
  match c with
  | ViaConvert => convert_at To From src σ
  | ViaAutoCastable => AutoCastable_operator To From (convert_deferred src) σ
  | ViaContainerCast => containerCast_at To From src σ
  | ViaArrayCast =>
      match To, From with
      | TArray T len', TArray U len =>
          if decide (len' = len) then arrayCast_at T U len src σ else IllFormed
      | _, _ => IllFormed
      end
  end.

(** The strategies of the spec, and the one [Converter<From, To>::call]
    commits to. *)
Inductive strategy : Type := NativeCast | ContainerCast | ArrayCast.

#[global] Instance strategy_eq_dec : EqDecision strategy.
Proof. solve_decision. Defined.

Definition selected_strategy (From To : ty) : option strategy :=
  match Converter_select From To with
  | ArrayConverter _ _ _ => Some ArrayCast
  | GeneralConverter =>
      match call_branch From To with
      | StaticCastBranch => Some NativeCast
      | ContainerCastBranch => Some ContainerCast
      | StaticAssertBranch => None
      end
  end.

(** Spec side: a strategy is applicable to a pair when its conversion
    from [From] to [To] is well-formed, and the spec picks the first
    applicable one in the order native, container, array. *)
Definition applicable (s : strategy) (From To : ty) : bool :=
  match s with
  | NativeCast => static_cast_valid To From
  | ContainerCast => containerCast_guard To From
  | ArrayCast =>
      match From, To with
      | TArray F len, TArray T len' => bool_decide (len = len') && arrayCast_guard T F
      | _, _ => false
      end
  end.

Definition spec_precedence : list strategy := [NativeCast; ContainerCast; ArrayCast].

Definition spec_selected (From To : ty) : option strategy :=
  List.find (fun s => applicable s From To) spec_precedence.

Definition applicable_count (From To : ty) : nat :=
  length (List.filter (fun s => applicable s From To) spec_precedence).

End Convert.

(** * The reference-iteration adapter, [nytl/bits/referenceIteration.inl] *)

Module ReferenceIteration.

(** ** The types the adapter computes with *)

Inductive cty : Type :=
| CInt
| CDouble
| CPtr (t : cty)      (* [t*] *)
| CConst (t : cty)    (* [t const] *)
| CRef (t : cty).     (* [t&] *)

#[global] Instance cty_eq_dec : EqDecision cty.
Proof. solve_decision. Defined.

Fixpoint cty_depth (t : cty) : nat :=
  match t with
  | CInt | CDouble => O
  | CPtr u | CConst u | CRef u => S (cty_depth u)
  end.

Definition strip_const (t : cty) : cty :=
  match t with CConst u => u | _ => t end.

Definition strip_ref (t : cty) : cty :=
  match t with CRef u => u | _ => t end.

(** [std::remove_pointer<t>::type]: the pointee of a (possibly const)
    pointer type, and [t] itself for everything else, a reference to a
    pointer included. *)
Definition remove_pointer (t : cty) : cty :=
  match t with
  | CPtr p => p
  | CConst (CPtr p) => p
  | _ => t
  end.

Inductive category : Type := LValue | PRValue.

#[global] Instance category_eq_dec : EqDecision category.
Proof. solve_decision. Defined.

(** The type and value category of an expression. *)
Record expr_type : Type := { etype : cty; ecat : category }.

(** A call of a function declared to return [ret]: an lvalue when [ret]
    is a reference.  [decltype] of the call is [ret] itself. *)
Definition call_expr (ret : cty) : expr_type :=
  match ret with
  | CRef t => {| etype := t; ecat := LValue |}
  | _ => {| etype := ret; ecat := PRValue |}
  end.

Definition decltype_call (ret : cty) : cty := ret.

(** Unary [*] on an expression of pointer type names the pointee. *)
Definition deref_expr (e : expr_type) : option expr_type :=
  match strip_const (etype e) with
  | CPtr p => Some {| etype := p; ecat := LValue |}
  | _ => None
  end.

Definition is_arith (t : cty) : bool :=
  match t with CInt | CDouble => true | _ => false end.

(** Initialising a [to] from an expression of type [from]. *)
Definition converts (to from : cty) : bool :=
  bool_decide (strip_const to = strip_const from) ||
  (is_arith (strip_const to) && is_arith (strip_const from)).

(** [return e;] in a function declared to return [ret]: a reference to
    non-const binds to an lvalue of that very type only. *)
Definition return_ok (ret : cty) (e : expr_type) : bool :=
  match ret with
  | CRef (CConst t) => converts t (etype e)
  | CRef t => bool_decide (ecat e = LValue) && bool_decide (t = etype e)
  | t => converts t (etype e)
  end.

(** The two iterator classes of a collection.  A collection may use one
    class for both its [iterator] and its [const_iterator], as [std::set]
    does, or two classes; two classes may declare the same operator
    types, as those of [std::unordered_set] do. *)
Inductive iterator_class : Type := IteratorClass | ConstIteratorClass.

#[global] Instance iterator_class_eq_dec : EqDecision iterator_class.
Proof. solve_decision. Defined.

(** An iterator type [T]: its class and the declared return types of its
    [operator*] and [operator->].  Two iterator types are one type when
    they are the same class. *)
Record iterator_type : Type :=
  { class_of : iterator_class; star_type : cty; arrow_type : cty }.

#[global] Instance iterator_type_eq_dec : EqDecision iterator_type.
Proof. solve_decision. Defined.

(** [std::vector<P*>::iterator] and [::const_iterator], the two
    iterator classes of [std::unordered_set<P*>], whose elements are
    constant through either, and an iterator that hands out its pointers
    by value. *)
Definition vector_iterator (P : cty) : iterator_type :=
  {| class_of := IteratorClass;
     star_type := CRef (CPtr P); arrow_type := CPtr (CPtr P) |}.

Definition vector_const_iterator (P : cty) : iterator_type :=
  {| class_of := ConstIteratorClass;
     star_type := CRef (CConst (CPtr P)); arrow_type := CPtr (CConst (CPtr P)) |}.

Definition unordered_set_iterator (P : cty) : iterator_type :=
  {| class_of := IteratorClass;
     star_type := CRef (CConst (CPtr P)); arrow_type := CPtr (CConst (CPtr P)) |}.

Definition unordered_set_const_iterator (P : cty) : iterator_type :=
  {| class_of := ConstIteratorClass;
     star_type := CRef (CConst (CPtr P)); arrow_type := CPtr (CConst (CPtr P)) |}.

Definition generator_iterator (P : cty) : iterator_type :=
  {| class_of := IteratorClass;
     star_type := CPtr P; arrow_type := CPtr (CConst (CPtr P)) |}.

(** Dereferencing [T] yields a pointer to [P]. *)
Definition yields_pointer (T : iterator_type) (P : cty) : Prop :=
  strip_const (strip_ref (star_type T)) = CPtr P.

(** ** [referenceIterator<T>] (lines 37-46) *)

(** Line 43: [operator->] is declared to return [decltype] of the
    dereferenced [T{}] and returns [T::operator->()] dereferenced. *)
Definition operator_arrow_type (T : iterator_type) : cty :=
  decltype_call (star_type T).

Definition operator_arrow_body (T : iterator_type) : option expr_type :=
  deref_expr (call_expr (arrow_type T)).

(** Lines 44-45: [operator*] is declared to return
    [std::remove_pointer<decltype] of the dereferenced [T{}] [>::type] and
    returns [T::operator*()] dereferenced. *)
Definition operator_star_type (T : iterator_type) : cty :=
  remove_pointer (decltype_call (star_type T)).

Definition operator_star_body (T : iterator_type) : option expr_type :=
  deref_expr (call_expr (star_type T)).

Definition well_formed (ret : cty) (body : option expr_type) : bool :=
  match body with
  | Some e => return_ok ret e
  | None => false
  end.

(** ** Objects *)

(** Pointees live in a heap of [int]s; a pointer is an address or null. *)
Abbreviation heap := (list Z).
Abbreviation pointer := (option nat).

(** A collection of pointers, and a position in it. *)
Abbreviation collection := (list pointer).

Record iter : Type := { coll : nat; pos : nat }.

(** A [referenceIterator<T>] is a [T] (it derives from it). *)
Record referenceIterator : Type := { base : iter }.

(** Memory: the collections by address, and the heap of pointees. *)
Record memory : Type := { collections : list collection; pointees : heap }.

(** What a dereference hands to its caller: the pointee itself, or a
    temporary that holds a copy of it. *)
Inductive access : Type :=
| Reference (a : nat)
| Temporary (v : Z).

(** [T::operator*()]: the pointer at the position (an lvalue in the
    collection). *)
Definition element (m : memory) (it : iter) : outcome pointer :=
  match collections m !! coll it with
  | Some c =>
      match c !! pos it with
      | Some p => Returns p
      | None => Undefined
      end
  | None => Undefined
  end.

(** The object a pointer points to; null is undefined behaviour. *)
Definition pointee (m : memory) (p : pointer) : outcome nat :=
  match p with
  | Some a => if decide (a < length (pointees m))%nat then Returns a else Undefined
  | None => Undefined
  end.

Definition load (m : memory) (a : nat) : outcome Z :=
  match pointees m !! a with
  | Some v => Returns v
  | None => Undefined
  end.

(** [referenceIterator<T>::operator*()]. *)
Definition operator_star (T : iterator_type) (m : memory) (it : referenceIterator)
    : outcome access :=
  if well_formed (operator_star_type T) (operator_star_body T) then
    p ← element m (base it);
    a ← pointee m p;
    match operator_star_type T with
    | CRef _ => Returns (Reference a)
    | _ => v ← load m a; Returns (Temporary v)
    end
  else IllFormed.

(** Lines 48-52. *)
Definition makeReferenceIterator (it : iter) : referenceIterator := {| base := it |}.

(** ** [referenceIteration<T>] (lines 54-82) *)

(** The collection type [T], by the iterator types its [begin()] and
    [cbegin()] return when called through [object_], a [T*]. *)
Record collection_type : Type :=
  { iterator_of : iterator_type; const_iterator_of : iterator_type }.

Definition vector_of (P : cty) : collection_type :=
  {| iterator_of := vector_iterator P; const_iterator_of := vector_const_iterator P |}.

Definition const_vector_of (P : cty) : collection_type :=
  {| iterator_of := vector_const_iterator P;
     const_iterator_of := vector_const_iterator P |}.

Definition unordered_set_of (P : cty) : collection_type :=
  {| iterator_of := unordered_set_iterator P;
     const_iterator_of := unordered_set_const_iterator P |}.

Record referenceIteration : Type := { object_ : nat }.

(** [object_->begin()], [object_->end()] and their [c] forms. *)
Definition C_begin (m : memory) (c : nat) : outcome iter :=
  match collections m !! c with
  | Some _ => Returns {| coll := c; pos := 0 |}
  | None => Undefined
  end.

Definition C_end (m : memory) (c : nat) : outcome iter :=
  match collections m !! c with
  | Some l => Returns {| coll := c; pos := length l |}
  | None => Undefined
  end.

(** Returning an iterator of type [have] from a function declared to
    return [referenceIterator<want>].  The only way in is the constructor
    [referenceIterator(const want&)]; its argument admits no further
    user-defined conversion, so [have] has to be the type [want] itself:
    a different class does not do, whatever its operators return. *)
Definition adapt (have want : iterator_type) (it : iter) : outcome referenceIterator :=
  if decide (have = want) then Returns {| base := it |} else IllFormed.

(** [iterator] is [referenceIterator<decltype(object_->begin())>] and
    [const_iterator] is [referenceIterator<decltype(object_->cbegin())>]. *)

(** Line 69: [iterator begin(){ object_->begin(); }] *)
Definition begin (T : collection_type) (v : referenceIteration) (m : memory)
    : outcome referenceIterator :=
  run_body [ExprStmt (C_begin m (object_ v))].

(** Line 70: [const_iterator begin() const { return object_->begin(); }] *)
Definition begin_const (T : collection_type) (v : referenceIteration) (m : memory)
    : outcome referenceIterator :=
  run_body [ReturnStmt (it ← C_begin m (object_ v);
                        adapt (iterator_of T) (const_iterator_of T) it)].

(** Line 71: [const_iterator cbegin() const { return object_->cbegin(); }] *)
Definition cbegin (T : collection_type) (v : referenceIteration) (m : memory)
    : outcome referenceIterator :=
  run_body [ReturnStmt (it ← C_begin m (object_ v);
                        adapt (const_iterator_of T) (const_iterator_of T) it)].

(** Line 76: [iterator end(){ object_->end(); }] *)
Definition end_ (T : collection_type) (v : referenceIteration) (m : memory)
    : outcome referenceIterator :=
  run_body [ExprStmt (C_end m (object_ v))].

(** Line 77: [const_iterator end() const { return object_->end(); }] *)
Definition end_const (T : collection_type) (v : referenceIteration) (m : memory)
    : outcome referenceIterator :=
  run_body [ReturnStmt (it ← C_end m (object_ v);
                        adapt (iterator_of T) (const_iterator_of T) it)].

(** Line 78: [const_iterator cend() const { return object_->cend(); }] *)
Definition cend (T : collection_type) (v : referenceIteration) (m : memory)
    : outcome referenceIterator :=
  run_body [ReturnStmt (it ← C_end m (object_ v);
                        adapt (const_iterator_of T) (const_iterator_of T) it)].

(** The forwarded iterators, adapted. *)
Definition forwarded_begin (v : referenceIteration) : referenceIterator :=
  makeReferenceIterator {| coll := object_ v; pos := 0 |}.

Definition forwarded_end (v : referenceIteration) (l : collection) : referenceIterator :=
  makeReferenceIterator {| coll := object_ v; pos := length l |}.

(** Dereferencing the iterators of a non-const view at [n] positions
    from [it] on. *)
Fixpoint walk (T : collection_type) (m : memory) (n : nat) (it : iter)
    : outcome (list access) :=
  match n with
  | O => Returns []
  | S n' =>
      x ← operator_star (iterator_of T) m {| base := it |};
      xs ← walk T m n' {| coll := coll it; pos := S (pos it) |};
      Returns (x :: xs)
  end.

(** A loop over a non-const view from [begin()] to [end()] that
    dereferences its iterator.  The loop names [operator*] of [iterator],
    which is instantiated, and rejected if ill-formed, whether or not the
    loop ever runs. *)
Definition iterate (T : collection_type) (v : referenceIteration) (m : memory)
    : outcome (list access) :=
  if well_formed (operator_star_type (iterator_of T))
       (operator_star_body (iterator_of T))
  then
    b ← begin T v m;
    e ← end_ T v m;
    walk T m (pos (base e) - pos (base b)) (base b)
  else IllFormed.

(** ** [makeReferenceIteration] (lines 84-88) *)

(** The class types of the header, instantiated at a collection type
    that is const-qualified or not. *)
Inductive class_type : Type :=
| ReferenceIteratorOf (const_collection : bool)
| ReferenceIterationOf (const_collection : bool)
| CollectionType (const_collection : bool).

#[global] Instance class_type_eq_dec : EqDecision class_type.
Proof. solve_decision. Defined.

(** Binding the parameter [T& object] of the constructor on line 67 to
    an lvalue: a reference to a non-const [T] does not bind to a const
    object. *)
Definition binds (param_const arg_const : bool) : bool :=
  param_const || negb arg_const.

(** The converting constructors: [referenceIterator<T>] is built from a
    [T] (line 41), [referenceIteration<T>] from a [T] (line 67); every
    type is built from itself. *)
Definition constructible (to from : class_type) : bool :=
  bool_decide (to = from) ||
  match to, from with
  | ReferenceIteratorOf c, CollectionType c' => bool_decide (c = c')
  | ReferenceIterationOf c, CollectionType c' => binds c c'
  | _, _ => false
  end.

(** An object of one of the class types; [referent] is the collection it
    refers to. *)
Record object : Type := { dynamic_type : class_type; referent : nat }.

(** Lines 84-88:
    [template<typename T> referenceIterator<T> makeReferenceIteration(const T& obj)]
    with the body [return referenceIteration<T>(obj);].  [T] is deduced
    from [const T&], or given explicitly; [obj] is a const lvalue.  The
    operand of [return] has the type [referenceIteration<T>] and must
    initialise the declared return type. *)
Definition makeReferenceIteration (T_const : bool) (obj : nat) : outcome object :=
  run_body
    [ReturnStmt
       (if binds T_const true
        then if constructible (ReferenceIteratorOf T_const) (ReferenceIterationOf T_const)
             then Returns {| dynamic_type := ReferenceIteratorOf T_const; referent := obj |}
             else IllFormed
        else IllFormed)].

(** Three [int]s [10], [20], [30] and a [std::vector<int*>] that points
    to them in this order. *)
Definition int_pointers : memory :=
  {| collections := [[Some 0; Some 1; Some 2]%nat]; pointees := [10; 20; 30] |}.

(** ** Walking a const view (lines 71, 78 and 44-45) *)

(** A collection whose iterators hand out its pointers by value. *)
Definition generator_of (P : cty) : collection_type :=
  {| iterator_of := generator_iterator P; const_iterator_of := generator_iterator P |}.

(** Dereferencing a [referenceIterator<I>] at [n] positions from [it]
    on. *)
Fixpoint visit (I : iterator_type) (m : memory) (n : nat) (it : iter)
    : outcome (list access) :=
  match n with
  | O => Returns []
  | S n' =>
      x ← operator_star I m {| base := it |};
      xs ← visit I m n' {| coll := coll it; pos := S (pos it) |};
      Returns (x :: xs)
  end.

(** A loop over a const view from [cbegin()] to [cend()] that
    dereferences its iterator.  The loop names [operator*] of
    [const_iterator], which is instantiated whether or not the loop body
    ever runs. *)
Definition iterate_const (T : collection_type) (v : referenceIteration) (m : memory)
    : outcome (list access) :=
  if well_formed (operator_star_type (const_iterator_of T))
       (operator_star_body (const_iterator_of T))
  then
    b ← cbegin T v m;
    e ← cend T v m;
    visit (const_iterator_of T) m (pos (base e) - pos (base b)) (base b)
  else IllFormed.

(** [referenceIterator<T>::operator->()] (line 43) evaluates to the
    pointer at the position; the caller reaches the members of the
    pointee through it. *)
Definition operator_arrow (T : iterator_type) (m : memory) (it : referenceIterator)
    : outcome pointer :=
  if well_formed (operator_arrow_type T) (operator_arrow_body T)
  then element m (base it)
  else IllFormed.

(** ** The reverse entry points (lines 63-64, 72-74, 79-81) *)

(** A [std::reverse_iterator<I>] holds an iterator [current] and
    designates the element before it. *)
Record reverse_iterator : Type := { current : iter }.

(** [object_->rbegin()] wraps [end()] and [object_->rend()] wraps
    [begin()]; the same for their [c] forms.  The collection is one with
    reverse iterators, as [std::vector], [std::list] and [std::set]
    are. *)
Definition C_rbegin (m : memory) (c : nat) : outcome reverse_iterator :=
  it ← C_end m c; Returns {| current := it |}.

Definition C_rend (m : memory) (c : nat) : outcome reverse_iterator :=
  it ← C_begin m c; Returns {| current := it |}.

Inductive standard : Type := Cpp17 | Cpp20.

(** Returning a [std::reverse_iterator<have>] from a function declared
    to return [std::reverse_iterator<referenceIterator<want>>].  The
    converting constructor template of [std::reverse_iterator]
    initialises the wrapped [referenceIterator<want>] directly from the
    [have] inside; direct initialisation may convert the [have] to the
    [want] that the constructor on line 41 takes, and the iterator of a
    container converts to its const_iterator.  From C++20 on the
    constructor template takes part only when [have] converts to
    [referenceIterator<want>] implicitly, which, as for [adapt], needs
    [have] to be [want]. *)
Definition reverse_adapt (s : standard) (have want : iterator_type)
    (r : reverse_iterator) : outcome reverse_iterator :=
  if decide (have = want) then Returns r
  else match s with
       | Cpp17 => Returns r
       | Cpp20 => IllFormed
       end.

(** Line 72: [reverse_iterator rbegin() { return object_->rbegin(); }] *)
Definition rbegin (s : standard) (T : collection_type) (v : referenceIteration)
    (m : memory) : outcome reverse_iterator :=
  run_body [ReturnStmt (r ← C_rbegin m (object_ v);
                        reverse_adapt s (iterator_of T) (iterator_of T) r)].


(** Line 74: [const_reverse_iterator crbegin() const { return object_->crbegin(); }] *)
Definition crbegin (s : standard) (T : collection_type) (v : referenceIteration)
    (m : memory) : outcome reverse_iterator :=
  run_body [ReturnStmt (r ← C_rbegin m (object_ v);
                        reverse_adapt s (const_iterator_of T) (const_iterator_of T) r)].

(** Line 79: [reverse_iterator rend() { return object_->rend(); }] *)
Definition rend (s : standard) (T : collection_type) (v : referenceIteration)
    (m : memory) : outcome reverse_iterator :=
  run_body [ReturnStmt (r ← C_rend m (object_ v);
                        reverse_adapt s (iterator_of T) (iterator_of T) r)].


(** Line 81: [const_reverse_iterator crend() const { return object_->crend(); }] *)
Definition crend (s : standard) (T : collection_type) (v : referenceIteration)
    (m : memory) : outcome reverse_iterator :=
  run_body [ReturnStmt (r ← C_rend m (object_ v);
                        reverse_adapt s (const_iterator_of T) (const_iterator_of T) r)].

(** [std::reverse_iterator<referenceIterator<I>>::operator*] is declared
    to return the member type [reference].  Up to C++17 that is
    [std::iterator_traits<referenceIterator<I>>::reference], the type
    [referenceIterator<I>] inherits from [I], which is what [I::operator*]
    returns.  From C++20 on it is [std::iter_reference_t] of
    [referenceIterator<I>]: the type its own [operator*] is declared to
    return. *)
Definition reverse_star_type (s : standard) (I : iterator_type) : cty :=
  match s with
  | Cpp17 => decltype_call (star_type I)
  | Cpp20 => operator_star_type I
  end.

(** The body: a copy of [current] is decremented and dereferenced.  The
    decrement is the one [referenceIterator<I>] inherits from [I]; it
    returns an [I&], so the dereference is [I::operator*]. *)
Definition reverse_star_body (I : iterator_type) : option expr_type :=
  Some (call_expr (star_type I)).

(** It yields the pointer in the collection, not what it points to.
    Decrementing the first position is undefined behaviour. *)
Definition reverse_star (s : standard) (I : iterator_type) (m : memory)
    (r : reverse_iterator) : outcome pointer :=
  if well_formed (reverse_star_type s I) (reverse_star_body I) then
    match pos (current r) with
    | O => Undefined
    | S k => element m {| coll := coll (current r); pos := k |}
    end
  else IllFormed.

(** Incrementing a reverse iterator decrements [current]. *)
Definition reverse_next (r : reverse_iterator) : reverse_iterator :=
  {| current := {| coll := coll (current r); pos := Nat.pred (pos (current r)) |} |}.

Fixpoint reverse_walk (s : standard) (I : iterator_type) (m : memory) (n : nat)
    (r : reverse_iterator) : outcome (list pointer) :=
  match n with
  | O => Returns []
  | S n' =>
      p ← reverse_star s I m r;
      ps ← reverse_walk s I m n' (reverse_next r);
      Returns (p :: ps)
  end.

(** A loop over a non-const view from [rbegin()] to [rend()] that
    dereferences its reverse iterator.  The loop names [operator*] of
    [reverse_iterator], which is instantiated, and rejected if
    ill-formed, whether or not the loop ever runs. *)
Definition reverse_iterate (s : standard) (T : collection_type)
    (v : referenceIteration) (m : memory) : outcome (list pointer) :=
  if well_formed (reverse_star_type s (iterator_of T)) (reverse_star_body (iterator_of T))
  then
    b ← rbegin s T v m;
    e ← rend s T v m;
    reverse_walk s (iterator_of T) m (pos (current b) - pos (current e)) b
  else IllFormed.

(** The pointer [p] is valid and points to the value [z]. *)
Definition points_to (m : memory) (p : pointer) (z : Z) : Prop :=
  exists a, p = Some a /\ pointees m !! a = Some z.

End ReferenceIteration.

(** * Facts about the outcome monad *)

Lemma obind_returns {A B : Type} (m : outcome A) (k : A -> outcome B) (b : B) :
  m ≫= k = Returns b -> exists a, m = Returns a /\ k a = Returns b.
Proof. destruct m; simpl; intros H; try discriminate. eauto. Qed.

Lemma sequence_returns {A : Type} (ms : list (outcome A)) (xs : list A) :
  sequence ms = Returns xs <-> ms = map Returns xs.
Proof.
  revert xs. induction ms as [|m ms IH]; intros xs; simpl.
  - split.
    + intros H. injection H as <-. reflexivity.
    + destruct xs; [reflexivity | discriminate].
  - split.
    + intros H. apply obind_returns in H as (x & -> & H).
      apply obind_returns in H as (ys & Hys & H). injection H as <-.
      apply IH in Hys. subst ms. reflexivity.
    + destruct xs as [|x xs]; [discriminate|]. simpl. intros H.
      injection H as -> Hms. apply IH in Hms. simpl. rewrite Hms. reflexivity.
Qed.

Lemma bind_Returns {A B : Type} (a : A) (k : A -> outcome B) :
  Returns a ≫= k = k a.
Proof. reflexivity. Qed.

Lemma sequence_length {A : Type} (ms : list (outcome A)) (xs : list A) :
  sequence ms = Returns xs -> length xs = length ms.
Proof.
  intros H. apply sequence_returns in H. subst ms.
  symmetry. apply length_map.
Qed.

(** * Facts about the convert facility *)

Module ConvertProofs.

Import Convert.

(** ** The definitions on small inputs *)

Example double_of_int_1 :
  double_of_int 1 = S754_finite false 4503599627370496 (-52).
Proof. vm_compute. reflexivity. Qed.

Example int_of_double_2_5 :
  int_of_double (S754_finite false 5 (-1)) = Some 2.
Proof. vm_compute. reflexivity. Qed.

Example resolve_same : resolve_convert TInt TInt = Ambiguous.
Proof. vm_compute. reflexivity. Qed.

Example resolve_int_double : resolve_convert TDouble TInt = ExplicitTarget.
Proof. vm_compute. reflexivity. Qed.

Example select_array :
  Converter_select (TArray TInt 3) (TArray TDouble 3) = ArrayConverter TInt TDouble 3.
Proof. vm_compute. reflexivity. Qed.

Example select_array_same :
  Converter_select (TArray TInt 3) (TArray TInt 3) = GeneralConverter.
Proof. vm_compute. reflexivity. Qed.

Example branch_celsius : call_branch (TClass Celsius) TInt = StaticAssertBranch.
Proof. vm_compute. reflexivity. Qed.

Example branch_int_celsius : call_branch TInt (TClass Celsius) = StaticCastBranch.
Proof. vm_compute. reflexivity. Qed.

Example instantiates_vec_celsius :
  instantiates (TVector TInt) (TVector (TClass Celsius)) = false.
Proof. vm_compute. reflexivity. Qed.

Example arrayCast_123 :
  arrayCast TDouble TInt 3 (vint [1; 2; 3]) =
  Returns (VSeq (map (fun z => VDouble (double_of_int z)) [1; 2; 3])).
Proof. vm_compute. reflexivity. Qed.

(** The scenario of the spec: the [int] array [1, 2, 3] becomes the
    [double] array [1.0, 2.0, 3.0]. *)
Example arrayCast_123_doubles :
  arrayCast TDouble TInt 3 (vint [1; 2; 3]) =
  Returns (VSeq [VDouble (S754_finite false 4503599627370496 (-52));
                 VDouble (S754_finite false 4503599627370496 (-51));
                 VDouble (S754_finite false 6755399441055744 (-51))]).
Proof. vm_compute. reflexivity. Qed.

Example containerCast_list :
  containerCast (TList TDouble) (TVector TInt) (vint [4; 5]) =
  Returns (VSeq (map (fun z => VDouble (double_of_int z)) [4; 5])).
Proof. vm_compute. reflexivity. Qed.

Example convert_vec_vec :
  convert (TVector TDouble) (TVector TInt) (vint [4; 5]) =
  Returns (VSeq (map (fun z => VDouble (double_of_int z)) [4; 5])).
Proof. vm_compute. reflexivity. Qed.

Example convert_celsius :
  convert TInt (TClass Celsius) (VObj Celsius 21) = Undefined.
Proof. vm_compute. reflexivity. Qed.

Example convert_array_to_vector :
  convert (TVector TInt) (TArray TInt 2) (vint [4; 5]) = Undefined.
Proof. vm_compute. reflexivity. Qed.

Example convert_vector_to_array :
  convert (TArray TInt 2) (TVector TInt) (vint [4; 5]) = IllFormed.
Proof. vm_compute. reflexivity. Qed.

Example containerCast_nested :
  containerCast (TVector (TVector TDouble)) (TVector (TVector TInt))
    (VSeq [vint [1]]) = IllFormed.
Proof. vm_compute. reflexivity. Qed.

(** ** Instantiation *)

(** The fuel of [instantiates] is enough: more of it changes nothing. *)
Lemma instantiates_fuel_enough (fuel : nat) :
  forall (fuel' : nat) (To From : ty),
    (Nat.min (ty_depth To) (ty_depth From) < fuel)%nat ->
    (Nat.min (ty_depth To) (ty_depth From) < fuel')%nat ->
    instantiates_fuel fuel To From = instantiates_fuel fuel' To From.
Proof.
  induction fuel as [|fuel IH]; intros fuel' To From H H'; [lia|].
  destruct fuel' as [|fuel']; [lia|]. cbn [instantiates_fuel].
  assert (forall T U,
             (Nat.min (ty_depth T) (ty_depth U) < S fuel)%nat ->
             (Nat.min (ty_depth T) (ty_depth U) < S fuel')%nat ->
             match elem_type T, elem_type U with
             | Some B, Some A => instantiates_fuel fuel B A
             | _, _ => false
             end =
             match elem_type T, elem_type U with
             | Some B, Some A => instantiates_fuel fuel' B A
             | _, _ => false
             end) as Hbody.
  { intros T U HT HT'.
    destruct T; simpl; try reflexivity; destruct U; simpl; try reflexivity;
      apply IH; simpl in HT, HT'; lia. }
  destruct (Converter_select From To) as [|F T len] eqn:Hsel.
  - destruct (call_branch From To); try reflexivity.
    rewrite (Hbody From To), (Hbody To From) by lia. reflexivity.
  - unfold Converter_select in Hsel.
    destruct From as [| | |F' l1| | |]; try discriminate.
    destruct To as [| | |T' l2| | |]; try discriminate.
    destruct (bool_decide (l1 = l2) && ValidArrayCast F' T' l1); [|discriminate].
    injection Hsel as <- <- <-. apply IH; simpl in H, H'; lia.
Qed.

Lemma has_type_value_init (t : ty) : has_type t (value_init t) = true.
Proof.
  induction t as [| |c|e IH len|e IH|e IH|e IH]; simpl; try reflexivity.
  - rewrite bool_decide_eq_true_2 by reflexivity. reflexivity.
  - rewrite length_replicate, N2Nat.id, N.eqb_refl. simpl.
    apply forallb_forall. intros x Hx. apply list_elem_of_In in Hx.
    apply elem_of_replicate in Hx as [-> _]. exact IH.
Qed.

(** ** The store *)

Lemma lookup_alloc_old (σ : store) (v : val) (a : nat) (w : val) :
  σ !! a = Some w -> (σ ++ [v]) !! a = Some w.
Proof. intros H. rewrite lookup_app_l; [exact H|]. eapply lookup_lt_Some, H. Qed.

Lemma lookup_alloc_new (σ : store) (v : val) :
  (σ ++ [v]) !! length σ = Some v.
Proof. rewrite lookup_app_r by lia. rewrite Nat.sub_diag. reflexivity. Qed.

Lemma insert_alloc (σ : store) (v w : val) :
  <[length σ := w]> (σ ++ [v]) = σ ++ [w].
Proof.
  rewrite insert_app_r_alt by lia. rewrite Nat.sub_diag. reflexivity.
Qed.

Lemma read_elem_old (σ : store) (r : val) (src i : nat) (l : list val) :
  σ !! src = Some (VSeq l) ->
  read_elem (σ ++ [r]) src i =
  match l !! i with Some x => Returns x | None => Undefined end.
Proof.
  intros H. unfold read_elem. rewrite (lookup_alloc_old _ _ _ _ H). reflexivity.
Qed.

Lemma seq_size_old (σ : store) (r : val) (src : nat) (l : list val) :
  σ !! src = Some (VSeq l) -> seq_size (σ ++ [r]) src = Returns (length l).
Proof.
  intros H. unfold seq_size. rewrite (lookup_alloc_old _ _ _ _ H). reflexivity.
Qed.

Lemma write_elem_new (σ : store) (r : list val) (i : nat) (y : val) :
  (i < length r)%nat ->
  write_elem (σ ++ [VSeq r]) (length σ) i y = Returns (σ ++ [VSeq (<[i := y]> r)]).
Proof.
  intros H. unfold write_elem. rewrite lookup_alloc_new.
  destruct (decide (i < length r)%nat); [|lia].
  rewrite insert_alloc. reflexivity.
Qed.

Lemma insert_middle (done tail : list val) (t y : val) :
  <[length done := y]> (done ++ t :: tail) = (done ++ [y]) ++ tail.
Proof.
  rewrite insert_app_r_alt by lia. rewrite Nat.sub_diag. simpl.
  rewrite <- app_assoc. reflexivity.
Qed.

(** ** The loop of [containerCast] *)

Section Loops.

Variable conv : ty -> val -> outcome val.

Lemma containerCast_loop_spec (A : ty) (σ : store) (src : nat) (l : list val) :
  σ !! src = Some (VSeq l) ->
  forall (rest pre done tail : list val) (fuel : nat),
    l = pre ++ rest ->
    length done = length pre ->
    length tail = length rest ->
    (length rest < fuel)%nat ->
    containerCast_loop conv A fuel src (length σ) (length pre) (length done)
      (σ ++ [VSeq (done ++ tail)]) =
    (ws ← sequence (map (conv A) rest); Returns (σ ++ [VSeq (done ++ ws)])).
Proof.
  intros Hsrc rest.
  induction rest as [|x rest IH]; intros pre done tail fuel Hl Hd Ht Hf;
    (destruct fuel as [|fuel]; [simpl in Hf; lia|]); simpl containerCast_loop;
    rewrite (seq_size_old _ _ _ _ Hsrc), bind_Returns.
  - destruct tail; [|discriminate]. subst l. rewrite length_app, Nat.add_0_r.
    destruct (decide (length pre = length pre)); [|congruence]. reflexivity.
  - destruct tail as [|t0 tail]; [discriminate|].
    assert (length l = (length pre + S (length rest))%nat) as Hlen
      by (subst l; rewrite length_app; reflexivity).
    destruct (decide (length pre = length l)); [lia|].
    rewrite (read_elem_old _ _ _ _ _ Hsrc).
    assert (l !! length pre = Some x) as ->
      by (subst l; rewrite lookup_app_r by lia; rewrite Nat.sub_diag; reflexivity).
    rewrite bind_Returns. simpl map. simpl sequence.
    destruct (conv A x) as [y|e]; try reflexivity.
    rewrite !bind_Returns.
    rewrite write_elem_new by (rewrite length_app; simpl; lia).
    rewrite bind_Returns, insert_middle.
    replace (S (length pre)) with (length (pre ++ [x]))
      by (rewrite length_app; simpl; lia).
    replace (S (length done)) with (length (done ++ [y]))
      by (rewrite length_app; simpl; lia).
    rewrite (IH (pre ++ [x]) (done ++ [y]) tail fuel).
    + destruct (sequence (map (conv A) rest)); try reflexivity.
      rewrite !bind_Returns, <- app_assoc. reflexivity.
    + subst l. rewrite <- app_assoc. reflexivity.
    + rewrite !length_app. simpl. lia.
    + simpl in Ht. lia.
    + simpl in Hf. lia.
Qed.

Lemma containerCast_body_spec (T U B A : ty) (σ : store) (src : nat) (l : list val) :
  elem_type T = Some B ->
  elem_type U = Some A ->
  resizable T = true ->
  σ !! src = Some (VSeq l) ->
  containerCast_body conv T U src σ =
  (ws ← sequence (map (conv A) l); Returns (length σ, σ ++ [VSeq ws])).
Proof.
  intros HB HA HT Hsrc. unfold containerCast_body. rewrite HB, HA.
  assert (value_init T = VSeq []) as -> by (destruct T; try discriminate; reflexivity).
  unfold alloc. rewrite (seq_size_old _ _ _ _ Hsrc), bind_Returns.
  unfold seq_resize. rewrite lookup_alloc_new, bind_Returns, insert_alloc.
  rewrite resize_nil.
  pose proof (containerCast_loop_spec A σ src l Hsrc l [] [] (replicate (length l) (value_init B))
                (S (length l)) eq_refl eq_refl) as H.
  cbn [length app] in H. rewrite H by (rewrite ?length_replicate; lia).
  destruct (sequence (map (conv A) l)); reflexivity.
Qed.

(** ** The loop of [arrayCast] *)

Lemma uint_modulus_pos : 0 < uint_modulus.
Proof. reflexivity. Qed.

(** Below [2^32] elements the counter never wraps and the loop converts
    the elements in order. *)
Lemma arrayCast_loop_spec (T U : ty) (len : N) (σ : store) (src : nat) (l : list val) :
  σ !! src = Some (VSeq l) ->
  N.of_nat (length l) = len ->
  Z.of_N len < uint_modulus ->
  forall (rest pre done tail : list val) (fuel : nat),
    l = pre ++ rest ->
    length done = length pre ->
    length tail = length rest ->
    (length rest < fuel)%nat ->
    arrayCast_loop conv T U fuel len src (length σ) (Z.of_nat (length pre))
      (σ ++ [VSeq (done ++ tail)]) =
    (ws ← sequence (map (convert_call_elem conv T U) rest);
     Returns (σ ++ [VSeq (done ++ ws)])).
Proof.
  intros Hsrc Hlen Hsmall rest.
  induction rest as [|x rest IH]; intros pre done tail fuel Hl Hd Ht Hf;
    (destruct fuel as [|fuel]; [simpl in Hf; lia|]); simpl arrayCast_loop;
    pose proof (f_equal length Hl) as Hll; rewrite length_app in Hll;
    simpl in Hll.
  - destruct tail; [|discriminate].
    destruct (Z.ltb_spec (Z.of_nat (length pre)) (Z.of_N len)); [lia|]. reflexivity.
  - destruct tail as [|t0 tail]; [discriminate|].
    destruct (Z.ltb_spec (Z.of_nat (length pre)) (Z.of_N len)); [|lia].
    rewrite Nat2Z.id, (read_elem_old _ _ _ _ _ Hsrc).
    assert (l !! length pre = Some x) as ->
      by (subst l; rewrite lookup_app_r by lia; rewrite Nat.sub_diag; reflexivity).
    rewrite bind_Returns. simpl map. simpl sequence.
    destruct (convert_call_elem conv T U x) as [y|e]; try reflexivity.
    rewrite !bind_Returns.
    rewrite write_elem_new by (rewrite length_app; simpl; lia).
    rewrite bind_Returns.
    replace (<[length pre := y]> (done ++ t0 :: tail)) with ((done ++ [y]) ++ tail)
      by (rewrite <- Hd; symmetry; apply insert_middle).
    rewrite Z.mod_small by lia.
    replace (Z.of_nat (length pre) + 1) with (Z.of_nat (length (pre ++ [x])))
      by (rewrite length_app; simpl; lia).
    rewrite (IH (pre ++ [x]) (done ++ [y]) tail fuel).
    + destruct (sequence (map (convert_call_elem conv T U) rest)); try reflexivity.
      rewrite !bind_Returns, <- app_assoc. reflexivity.
    + subst l. rewrite <- app_assoc. reflexivity.
    + rewrite !length_app. simpl. lia.
    + simpl in Ht. lia.
    + simpl in Hf. lia.
Qed.

(** A loop that returns has seen its counter reach the bound, and the
    counter stays below [2^32]. *)
Lemma arrayCast_loop_returns_small (T U : ty) (len : N) (array ret : nat) :
  forall (fuel : nat) (i : Z) (σ σ' : store),
    0 <= i < uint_modulus ->
    arrayCast_loop conv T U fuel len array ret i σ = Returns σ' ->
    Z.of_N len < uint_modulus.
Proof.
  induction fuel as [|fuel IH]; intros i σ σ' Hi H; simpl in H; [discriminate|].
  destruct (Z.ltb_spec i (Z.of_N len)); [|lia].
  apply obind_returns in H as (x & _ & H).
  apply obind_returns in H as (y & _ & H).
  apply obind_returns in H as (σ1 & _ & H).
  eapply IH; [|exact H]. apply Z.mod_pos_bound, uint_modulus_pos.
Qed.

(** From [2^32] elements on the counter wraps to [0] before it reaches
    the bound: whatever the fuel, the loop does not return. *)
Lemma arrayCast_loop_diverges (T U : ty) (len : N) (σ : store) (src : nat) (l : list val) :
  σ !! src = Some (VSeq l) ->
  N.of_nat (length l) = len ->
  uint_modulus <= Z.of_N len ->
  (forall x, x ∈ l -> exists y, convert_call_elem conv T U x = Returns y) ->
  forall (fuel : nat) (i : Z) (r : list val),
    0 <= i < uint_modulus ->
    length r = length l ->
    arrayCast_loop conv T U fuel len src (length σ) i (σ ++ [VSeq r]) = Diverges.
Proof.
  intros Hsrc Hlen Hbig Hconv.
  induction fuel as [|fuel IH]; intros i r Hi Hr; simpl; [reflexivity|].
  destruct (Z.ltb_spec i (Z.of_N len)); [|lia].
  rewrite (read_elem_old _ _ _ _ _ Hsrc).
  destruct (l !! Z.to_nat i) as [x|] eqn:Hx.
  - rewrite bind_Returns.
    destruct (Hconv x) as (y & ->); [eapply list_elem_of_lookup_2, Hx|].
    rewrite bind_Returns.
    rewrite write_elem_new by (apply lookup_lt_Some in Hx; lia).
    rewrite bind_Returns. apply IH.
    + apply Z.mod_pos_bound, uint_modulus_pos.
    + rewrite length_insert. exact Hr.
  - apply lookup_ge_None in Hx. lia.
Qed.

Lemma arrayCast_body_spec (T U : ty) (len : N) (σ : store) (src : nat) (l : list val) :
  σ !! src = Some (VSeq l) ->
  N.of_nat (length l) = len ->
  Z.of_N len < uint_modulus ->
  arrayCast_body conv T U len src σ =
  (ws ← sequence (map (convert_call_elem conv T U) l);
   Returns (length σ, σ ++ [VSeq ws])).
Proof.
  intros Hsrc Hlen Hsmall. unfold arrayCast_body, alloc.
  cbn [value_init].
  pose proof (arrayCast_loop_spec T U len σ src l Hsrc Hlen Hsmall l [] []
                (replicate (N.to_nat len) (value_init T)) (S (N.to_nat len))
                eq_refl eq_refl) as H.
  cbn [length app] in H. change (Z.of_nat 0) with 0 in H.
  rewrite H by (rewrite ?length_replicate; lia).
  destruct (sequence (map (convert_call_elem conv T U) l)); reflexivity.
Qed.

Lemma arrayCast_body_diverges (T U : ty) (len : N) (σ : store) (src : nat) (l : list val) :
  σ !! src = Some (VSeq l) ->
  N.of_nat (length l) = len ->
  uint_modulus <= Z.of_N len ->
  (forall x, x ∈ l -> exists y, convert_call_elem conv T U x = Returns y) ->
  arrayCast_body conv T U len src σ = Diverges.
Proof.
  intros Hsrc Hlen Hbig Hconv. unfold arrayCast_body, alloc. cbn [value_init].
  rewrite (arrayCast_loop_diverges T U len σ src l Hsrc Hlen Hbig Hconv).
  - reflexivity.
  - pose proof uint_modulus_pos. lia.
  - rewrite length_replicate. lia.
Qed.

Lemma arrayCast_body_returns_small (T U : ty) (len : N) (src : nat) (σ : store)
    (p : nat * store) :
  arrayCast_body conv T U len src σ = Returns p -> Z.of_N len < uint_modulus.
Proof.
  unfold arrayCast_body, alloc. intros H.
  apply obind_returns in H as (σ1 & H & _).
  eapply arrayCast_loop_returns_small; [|exact H].
  pose proof uint_modulus_pos. lia.
Qed.

(** ** The bodies compute from the source alone *)

Lemma read_elem_frame (σ : store) (r v : val) (src i : nat) :
  σ !! src = Some v -> read_elem (σ ++ [r]) src i = read_elem [v] 0 i.
Proof.
  intros H. unfold read_elem. rewrite (lookup_alloc_old _ _ _ _ H). reflexivity.
Qed.

Lemma seq_size_frame (σ : store) (r v : val) (src : nat) :
  σ !! src = Some v -> seq_size (σ ++ [r]) src = seq_size [v] 0.
Proof.
  intros H. unfold seq_size. rewrite (lookup_alloc_old _ _ _ _ H). reflexivity.
Qed.

Lemma write_elem_new_cases (σ : store) (r : list val) (i : nat) (y : val) :
  write_elem (σ ++ [VSeq r]) (length σ) i y =
  if decide (i < length r)%nat
  then Returns (σ ++ [VSeq (<[i := y]> r)])
  else Undefined.
Proof.
  unfold write_elem. rewrite lookup_alloc_new.
  destruct (decide (i < length r)%nat); [|reflexivity].
  rewrite insert_alloc. reflexivity.
Qed.

Lemma arrayCast_loop_frame (T U : ty) (len : N) (v : val) :
  forall (fuel : nat) (i : Z) (r : list val),
  exists res : outcome (list val),
    forall (σ : store) (src : nat),
      σ !! src = Some v ->
      arrayCast_loop conv T U fuel len src (length σ) i (σ ++ [VSeq r]) =
      omap (fun r' => σ ++ [VSeq r']) res.
Proof.
  induction fuel as [|fuel IH]; intros i r; simpl.
  - exists Diverges. reflexivity.
  - destruct (i <? Z.of_N len); [|exists (Returns r); reflexivity].
    destruct (read_elem [v] 0 (Z.to_nat i)) as [x|e] eqn:Hx.
    + destruct (convert_call_elem conv T U x) as [y|e] eqn:Hy.
      * destruct (decide (Z.to_nat i < length r)%nat) as [Hi|Hi].
        -- destruct (IH ((i + 1) mod uint_modulus) (<[Z.to_nat i := y]> r))
             as [res Hres].
           exists res. intros σ src H.
           rewrite (read_elem_frame _ _ _ _ _ H), Hx, bind_Returns, Hy, bind_Returns.
           rewrite write_elem_new_cases.
           destruct (decide (Z.to_nat i < length r)%nat); [|contradiction].
           rewrite bind_Returns. apply Hres, H.
        -- exists Undefined. intros σ src H.
           rewrite (read_elem_frame _ _ _ _ _ H), Hx, bind_Returns, Hy, bind_Returns.
           rewrite write_elem_new_cases.
           destruct (decide (Z.to_nat i < length r)%nat); [contradiction|].
           reflexivity.
      * exists (Fails e). intros σ src H.
        rewrite (read_elem_frame _ _ _ _ _ H), Hx, bind_Returns, Hy. reflexivity.
    + exists (Fails e). intros σ src H.
      rewrite (read_elem_frame _ _ _ _ _ H), Hx. reflexivity.
Qed.

Lemma containerCast_loop_frame (A : ty) (v : val) :
  forall (fuel f t : nat) (r : list val),
  exists res : outcome (list val),
    forall (σ : store) (src : nat),
      σ !! src = Some v ->
      containerCast_loop conv A fuel src (length σ) f t (σ ++ [VSeq r]) =
      omap (fun r' => σ ++ [VSeq r']) res.
Proof.
  induction fuel as [|fuel IH]; intros f t r; simpl.
  - exists Diverges. reflexivity.
  - destruct (seq_size [v] 0) as [n|e] eqn:Hn.
    2: { exists (Fails e). intros σ src H.
         rewrite (seq_size_frame _ _ _ _ H), Hn. reflexivity. }
    destruct (decide (f = n)) as [Hf|Hf].
    { exists (Returns r). intros σ src H.
      rewrite (seq_size_frame _ _ _ _ H), Hn, bind_Returns.
      destruct (decide (f = n)); [reflexivity|contradiction]. }
    destruct (read_elem [v] 0 f) as [x|e] eqn:Hx.
    2: { exists (Fails e). intros σ src H.
         rewrite (seq_size_frame _ _ _ _ H), Hn, bind_Returns.
         destruct (decide (f = n)); [contradiction|].
         rewrite (read_elem_frame _ _ _ _ _ H), Hx. reflexivity. }
    destruct (conv A x) as [y|e] eqn:Hy.
    2: { exists (Fails e). intros σ src H.
         rewrite (seq_size_frame _ _ _ _ H), Hn, bind_Returns.
         destruct (decide (f = n)); [contradiction|].
         rewrite (read_elem_frame _ _ _ _ _ H), Hx, bind_Returns, Hy. reflexivity. }
    destruct (decide (t < length r)%nat) as [Ht|Ht].
    + destruct (IH (S f) (S t) (<[t := y]> r)) as [res Hres].
      exists res. intros σ src H.
      rewrite (seq_size_frame _ _ _ _ H), Hn, bind_Returns.
      destruct (decide (f = n)); [contradiction|].
      rewrite (read_elem_frame _ _ _ _ _ H), Hx, bind_Returns, Hy,
        bind_Returns, write_elem_new_cases.
      destruct (decide (t < length r)%nat); [|contradiction].
      rewrite bind_Returns. apply Hres, H.
    + exists Undefined. intros σ src H.
      rewrite (seq_size_frame _ _ _ _ H), Hn, bind_Returns.
      destruct (decide (f = n)); [contradiction|].
      rewrite (read_elem_frame _ _ _ _ _ H), Hx, bind_Returns, Hy,
        bind_Returns, write_elem_new_cases.
      destruct (decide (t < length r)%nat); [contradiction|].
      reflexivity.
Qed.

(** A body whose result on every store is one store-independent outcome,
    added as a new object, is frame preserving. *)
Lemma frame_preserving_intro (body : nat -> store -> outcome (nat * store)) :
  (forall v, exists res : outcome val,
      forall (σ : store) (src : nat),
        σ !! src = Some v -> body src σ = omap (alloc σ) res) ->
  frame_preserving body.
Proof.
  intros Hbody σ src v Hsrc. destruct (Hbody v) as [res Hres].
  rewrite (Hres σ src Hsrc). f_equal.
  unfold on_value. rewrite (Hres [v] 0%nat eq_refl).
  destruct res; reflexivity.
Qed.

Lemma arrayCast_body_frame (T U : ty) (len : N) :
  frame_preserving (arrayCast_body conv T U len).
Proof.
  apply frame_preserving_intro. intros v.
  destruct (arrayCast_loop_frame T U len v (S (N.to_nat len)) 0
              (replicate (N.to_nat len) (value_init T))) as [res Hres].
  exists (omap VSeq res). intros σ src H.
  unfold arrayCast_body, alloc. cbn [value_init].
  rewrite (Hres σ src H). destruct res; reflexivity.
Qed.

Lemma containerCast_body_frame (T U : ty) :
  frame_preserving (containerCast_body conv T U).
Proof.
  apply frame_preserving_intro. intros v. unfold containerCast_body.
  destruct (elem_type T) as [B|]; [|exists IllFormed; reflexivity].
  destruct (elem_type U) as [A|]; [|exists IllFormed; reflexivity].
  unfold alloc.
  destruct (seq_size [v] 0) as [n|e] eqn:Hn.
  - destruct (value_init T) as [| | |l0] eqn:HT.
    1-3: exists Undefined; intros σ src H;
      rewrite (seq_size_frame _ _ _ _ H), Hn, bind_Returns;
      unfold seq_resize; rewrite lookup_alloc_new; reflexivity.
    destruct (containerCast_loop_frame A v (S n) 0%nat 0%nat (resize n (value_init B) l0))
      as [res Hres].
    exists (omap VSeq res). intros σ src H.
    rewrite (seq_size_frame _ _ _ _ H), Hn, bind_Returns.
    unfold seq_resize. rewrite lookup_alloc_new, bind_Returns, insert_alloc.
    rewrite (Hres σ src H). destruct res; reflexivity.
  - exists (Fails e). intros σ src H.
    rewrite (seq_size_frame _ _ _ _ H), Hn. reflexivity.
Qed.

Lemma Converter_call_frame (To From : ty) :
  frame_preserving (Converter_call conv To From).
Proof.
  unfold Converter_call.
  destruct (Converter_select From To) as [|F T len].
  - destruct (call_branch From To).
    + apply frame_preserving_intro. intros v.
      exists (static_cast To From v). intros σ src H.
      unfold read_obj. rewrite H, bind_Returns.
      destruct (static_cast To From v); reflexivity.
    + destruct (containerCast_guard To From).
      * apply containerCast_body_frame.
      * apply frame_preserving_intro. intros v. exists IllFormed. reflexivity.
    + apply frame_preserving_intro. intros v.
      exists (run_body [StaticAssert (static_assert_condition From)]).
      intros σ src H. simpl. destruct (static_assert_condition From); reflexivity.
  - apply arrayCast_body_frame.
Qed.

End Loops.

(** ** [convert] and the calls built on it *)

Lemma convert_run_unfold (To From : ty) (other : val) :
  convert_run To From other =
  on_value (Converter_call (convert_elem_of To) To From) other.
Proof. destruct To; reflexivity. Qed.

Lemma convert_unfold (T O : ty) (other : val) :
  convert T O other =
  if instantiates T O then convert_run T O other else IllFormed.
Proof.
  unfold convert, on_value, convert_at. rewrite convert_run_unfold.
  destruct (instantiates T O); reflexivity.
Qed.

Lemma frame_preserving_guarded (b : bool) (body : nat -> store -> outcome (nat * store)) :
  frame_preserving body ->
  frame_preserving (fun src σ => if b then body src σ else IllFormed).
Proof.
  intros H. destruct b; [exact H|].
  apply frame_preserving_intro. intros v. exists IllFormed. reflexivity.
Qed.

Lemma convert_at_frame (T O : ty) : frame_preserving (convert_at T O).
Proof.
  unfold convert_at.
  apply (frame_preserving_guarded (instantiates T O)
           (Converter_call (convert_elem_of T) T O)).
  apply Converter_call_frame.
Qed.

Lemma arrayCast_at_frame (T U : ty) (len : N) : frame_preserving (arrayCast_at T U len).
Proof.
  unfold arrayCast_at.
  apply (frame_preserving_guarded (arrayCast_guard T U && instantiates T U)
           (arrayCast_body (convert_run T) T U len)).
  apply arrayCast_body_frame.
Qed.

Lemma containerCast_at_frame (T U : ty) : frame_preserving (containerCast_at T U).
Proof.
  unfold containerCast_at.
  apply (frame_preserving_guarded (containerCast_wf T U)
           (containerCast_body (convert_elem_of T) T U)).
  apply containerCast_body_frame.
Qed.

(** The call [convert<T>(x)] is the two-parameter template whenever the
    type of [x] is not [T], and is ambiguous when it is. *)
Lemma convert_expr_other (T O : ty) (x : val) :
  T <> O -> convert_expr T O x = convert T O x.
Proof.
  intros H. unfold convert_expr, resolve_convert, rank_explicit, rank_deferred.
  destruct (decide (T = O)); [contradiction|].
  destruct (implicitly_convertible T O); reflexivity.
Qed.

Lemma convert_expr_same (T : ty) (x : val) : convert_expr T T x = IllFormed.
Proof.
  unfold convert_expr, resolve_convert, rank_explicit, rank_deferred.
  destruct (decide (T = T)); [reflexivity|contradiction].
Qed.

Lemma convert_expr_returns (T O : ty) (x w : val) :
  convert_expr T O x = Returns w -> T <> O /\ convert T O x = Returns w.
Proof.
  intros H. destruct (decide (T = O)) as [->|Hne].
  - rewrite convert_expr_same in H. discriminate.
  - rewrite convert_expr_other in H by exact Hne. auto.
Qed.

Lemma static_assert_condition_holds (From : ty) : static_assert_condition From = true.
Proof. reflexivity. Qed.

Lemma static_cast_valid_array (T F : ty) (len len' : N) :
  static_cast_valid (TArray T len) (TArray F len') = true ->
  TArray T len = TArray F len'.
Proof.
  unfold static_cast_valid.
  destruct (decide (TArray T len = TArray F len')); [auto|discriminate].
Qed.

Lemma arrayCast_guard_irrefl (T : ty) : arrayCast_guard T T = false.
Proof.
  unfold arrayCast_guard, resolve_convert, rank_explicit, rank_deferred.
  destruct (decide (T = T)); [reflexivity|contradiction].
Qed.

Lemma arrayCast_guard_ne (T U : ty) : arrayCast_guard T U = true <-> T <> U.
Proof.
  unfold arrayCast_guard, resolve_convert, rank_explicit, rank_deferred.
  destruct (decide (T = U)); [split; [discriminate|contradiction]|].
  destruct (implicitly_convertible T U); split; auto.
Qed.

(** A pair the native cast handles in both directions is converted by
    the native cast. *)
Lemma Converter_select_static (To From : ty) :
  static_cast_valid To From = true -> Converter_select From To = GeneralConverter.
Proof.
  intros H. unfold Converter_select.
  destruct From as [| | |F len| | |]; try reflexivity.
  destruct To as [| | |T len'| | |]; try reflexivity.
  apply static_cast_valid_array in H. injection H as -> ->.
  unfold ValidArrayCast. rewrite arrayCast_guard_irrefl, andb_false_r. reflexivity.
Qed.

Lemma convert_static_cast (To From : ty) (v : val) :
  static_cast_valid To From = true ->
  static_cast_valid From To = true ->
  convert To From v = static_cast To From v.
Proof.
  intros Hfwd Hrev. unfold convert, on_value, convert_at, instantiates.
  cbn [instantiates_fuel]. unfold Converter_call.
  rewrite (Converter_select_static To From Hfwd).
  unfold call_branch, expressionValid, ValidStaticCast. rewrite Hrev, Hfwd.
  unfold read_obj. cbn [lookup list_lookup]. rewrite bind_Returns.
  destruct (static_cast To From v); reflexivity.
Qed.

(** ** Results have the target type and the size of the source *)

Lemma in_int_of_double (d : spec_float) (z : Z) :
  int_of_double d = Some z -> in_int z = true.
Proof.
  unfold int_of_double. destruct (truncate d) as [t|]; [|discriminate].
  destruct (in_int t) eqn:E; [|discriminate].
  intros H. injection H as <-. exact E.
Qed.

(** In the branch of [call] that casts, the cast is valid in the reverse
    direction too; such a cast keeps the target type and the size. *)
Lemma static_cast_type (To From : ty) (v w : val) :
  static_cast_valid From To = true ->
  has_type From v = true ->
  static_cast To From v = Returns w ->
  has_type To w = true /\ size w = size v.
Proof.
  intros Hrev Hv. unfold static_cast. unfold static_cast_valid in Hrev.
  destruct (decide (To = From)) as [->|Hne].
  - intros H. injection H as <-. auto.
  - destruct (decide (From = To)) as [->|_]; [contradiction|].
    destruct To, From; try discriminate; destruct v; try discriminate.
    + destruct (int_of_double d) as [z|] eqn:Hz; [|discriminate].
      intros H. injection H as <-. split; [|reflexivity].
      simpl. eapply in_int_of_double, Hz.
    + intros H. injection H as <-. auto.
Qed.

Lemma has_type_seq (t A : ty) (v : val) :
  elem_type t = Some A ->
  has_type t v = true ->
  exists l, v = VSeq l /\ forallb (has_type A) l = true.
Proof.
  intros Ht Hv.
  destruct t; try discriminate; injection Ht as ->;
    destruct v as [| | |l]; try discriminate; exists l; split; try reflexivity.
  - simpl in Hv. apply andb_true_iff in Hv as [_ Hv]. exact Hv.
  - exact Hv.
  - exact Hv.
  - exact Hv.
Qed.

Lemma sequence_map_Forall2 {A B : Type} (f : A -> outcome B) (l : list A) (ws : list B) :
  sequence (map f l) = Returns ws -> Forall2 (fun x w => f x = Returns w) l ws.
Proof.
  revert ws. induction l as [|x l IH]; intros ws H; simpl in H.
  - injection H as <-. constructor.
  - apply obind_returns in H as (y & Hy & H).
    apply obind_returns in H as (ys & Hys & H). injection H as <-.
    constructor; auto.
Qed.

Lemma Forall2_sequence_map {A B : Type} (f : A -> outcome B) (l : list A) (ws : list B) :
  Forall2 (fun x w => f x = Returns w) l ws -> sequence (map f l) = Returns ws.
Proof.
  induction 1 as [|x w l ws Hx _ IH]; simpl; [reflexivity|].
  rewrite Hx, bind_Returns, IH. reflexivity.
Qed.

Lemma forallb_Forall2 {A B : Type} (P : A -> bool) (Q : B -> bool)
    (R : A -> B -> Prop) (l : list A) (ws : list B) :
  (forall x w, P x = true -> R x w -> Q w = true) ->
  forallb P l = true -> Forall2 R l ws -> forallb Q ws = true.
Proof.
  intros HPQ Hl H. induction H as [|x w l ws Hx _ IH]; [reflexivity|].
  simpl in Hl |- *. apply andb_true_iff in Hl as [Hpx Hl].
  rewrite (HPQ x w Hpx Hx), IH by exact Hl. reflexivity.
Qed.

Lemma on_value_returns (body : nat -> store -> outcome (nat * store)) (v : val)
    (ws : outcome val) :
  body 0%nat [v] = omap (alloc [v]) ws -> on_value body v = ws.
Proof.
  intros H. unfold on_value. rewrite H. destruct ws; reflexivity.
Qed.

Section ElementTypes.

Variable conv : ty -> val -> outcome val.
Variable B : ty.

Hypothesis conv_type :
  forall (A : ty) (x y : val),
    has_type A x = true -> conv A x = Returns y -> has_type B y = true.

Lemma containerCast_value_spec (T U A : ty) (l : list val) :
  elem_type T = Some B ->
  elem_type U = Some A ->
  resizable T = true ->
  on_value (containerCast_body conv T U) (VSeq l) =
  (ws ← sequence (map (conv A) l); Returns (VSeq ws)).
Proof.
  intros HB HA HT. apply on_value_returns.
  rewrite (containerCast_body_spec conv T U B A [VSeq l] 0 l HB HA HT eq_refl).
  destruct (sequence (map (conv A) l)); reflexivity.
Qed.

Lemma containerCast_value_type (T U : ty) (v w : val) :
  elem_type T = Some B ->
  containerCast_guard T U = true ->
  has_type U v = true ->
  on_value (containerCast_body conv T U) v = Returns w ->
  has_type T w = true /\ size w = size v.
Proof.
  intros HB Hg Hv H. unfold containerCast_guard in Hg.
  apply andb_true_iff in Hg as [HT Hg]. rewrite HB in Hg.
  destruct (elem_type U) as [A|] eqn:HA; [|discriminate].
  destruct (has_type_seq U A v HA Hv) as (l & -> & Hl).
  rewrite (containerCast_value_spec T U A l HB HA HT) in H.
  apply obind_returns in H as (ws & Hws & H). injection H as <-.
  apply sequence_map_Forall2 in Hws. split.
  - assert (forallb (has_type B) ws = true) as Hw
      by (eapply forallb_Forall2; [|exact Hl|exact Hws]; intros x y; apply conv_type).
    destruct T; try discriminate; injection HB as ->; exact Hw.
  - simpl. symmetry. eapply Forall2_length, Hws.
Qed.

Lemma arrayCast_value_spec (T U : ty) (len : N) (l : list val) :
  N.of_nat (length l) = len ->
  Z.of_N len < uint_modulus ->
  on_value (arrayCast_body conv T U len) (VSeq l) =
  (ws ← sequence (map (convert_call_elem conv T U) l); Returns (VSeq ws)).
Proof.
  intros Hlen Hsmall. apply on_value_returns.
  rewrite (arrayCast_body_spec conv T U len [VSeq l] 0 l eq_refl Hlen Hsmall).
  destruct (sequence (map (convert_call_elem conv T U) l)); reflexivity.
Qed.

Lemma arrayCast_value_type (U : ty) (len : N) (v w : val) :
  has_type (TArray U len) v = true ->
  on_value (arrayCast_body conv B U len) v = Returns w ->
  has_type (TArray B len) w = true /\ size w = size v.
Proof.
  intros Hv H.
  destruct v as [| | |l]; try discriminate. simpl in Hv.
  apply andb_true_iff in Hv as [Hlen Hl]. apply N.eqb_eq in Hlen.
  assert (Z.of_N len < uint_modulus) as Hsmall.
  { unfold on_value in H. apply obind_returns in H as (p & Hp & _).
    eapply arrayCast_body_returns_small, Hp. }
  rewrite (arrayCast_value_spec B U len l Hlen Hsmall) in H.
  apply obind_returns in H as (ws & Hws & H). injection H as <-.
  apply sequence_map_Forall2 in Hws.
  pose proof (Forall2_length _ _ _ Hws) as Hlw. split.
  - simpl. rewrite <- Hlw, Hlen, N.eqb_refl. simpl.
    eapply forallb_Forall2; [|exact Hl|exact Hws].
    intros x y Hx. unfold convert_call_elem.
    destruct (resolve_convert B U); try discriminate. apply conv_type, Hx.
  - simpl. symmetry. exact Hlw.
Qed.

End ElementTypes.

Lemma Converter_select_array (From To F T : ty) (len : N) :
  Converter_select From To = ArrayConverter F T len ->
  From = TArray F len /\ To = TArray T len /\ arrayCast_guard T F = true.
Proof.
  unfold Converter_select.
  destruct From as [| | |F' l1| | |]; try discriminate.
  destruct To as [| | |T' l2| | |]; try discriminate.
  destruct (bool_decide (l1 = l2)) eqn:Hl; [|discriminate].
  unfold ValidArrayCast. destruct (arrayCast_guard T' F') eqn:Hg; [|discriminate].
  simpl. intros H. injection H as <- <- <-.
  apply bool_decide_eq_true in Hl. subst l2. auto.
Qed.

Lemma Converter_call_type (conv : ty -> val -> outcome val) (To From : ty) (v w : val) :
  (forall B, elem_type To = Some B ->
     forall (A : ty) (x y : val),
       has_type A x = true -> conv A x = Returns y -> has_type B y = true) ->
  has_type From v = true ->
  on_value (Converter_call conv To From) v = Returns w ->
  has_type To w = true /\ size w = size v.
Proof.
  intros Hconv Hv. unfold Converter_call.
  destruct (Converter_select From To) as [|F T len] eqn:Hsel.
  - destruct (call_branch From To) eqn:Hbr.
    + intros H.
      assert (static_cast_valid From To = true) as Hrev.
      { unfold call_branch, expressionValid, ValidStaticCast in Hbr.
        destruct (static_cast_valid From To); [reflexivity|].
        destruct (ValidContainerCast From To); discriminate. }
      apply (static_cast_type To From v w Hrev Hv).
      unfold on_value, read_obj in H. cbn [lookup list_lookup] in H.
      rewrite bind_Returns in H.
      destruct (static_cast To From v); try discriminate. exact H.
    + destruct (containerCast_guard To From) eqn:Hg; [|discriminate].
      assert (exists B, elem_type To = Some B) as [B HB].
      { unfold containerCast_guard in Hg. apply andb_true_iff in Hg as [_ Hg].
        destruct (elem_type To); [eauto|discriminate]. }
      apply (containerCast_value_type conv B (Hconv B HB) To From v w HB Hg Hv).
    + unfold on_value. simpl. destruct (static_assert_condition From); discriminate.
  - apply Converter_select_array in Hsel as (-> & -> & Hg).
    apply (arrayCast_value_type conv T (Hconv T eq_refl) F len v w Hv).
Qed.

Lemma convert_run_type (To : ty) :
  forall (From : ty) (v w : val),
    has_type From v = true ->
    convert_run To From v = Returns w ->
    has_type To w = true /\ size w = size v.
Proof.
  induction To as [| | |B IH len|B IH|B IH|B IH]; intros From v w Hv H;
    rewrite convert_run_unfold in H;
    apply (Converter_call_type _ _ From v w) in H; auto;
    intros B' HB'; try discriminate; injection HB' as <-;
    intros A x y Hx Hy; apply (IH A x y Hx Hy).
Qed.

Lemma convert_type (To From : ty) (v w : val) :
  has_type From v = true ->
  convert To From v = Returns w ->
  has_type To w = true /\ size w = size v.
Proof.
  rewrite convert_unfold. destruct (instantiates To From); [|discriminate].
  apply convert_run_type.
Qed.

(** ** Element-wise conversion *)

Lemma Forall2_exists {A B : Type} (f : A -> outcome B) (l : list A) :
  (forall x, x ∈ l -> exists w, f x = Returns w) ->
  exists ws, Forall2 (fun x w => f x = Returns w) l ws.
Proof.
  induction l as [|x l IH]; intros H.
  - exists []. constructor.
  - destruct (H x) as [w Hw]; [left|].
    destruct IH as [ws Hws]; [intros y Hy; apply H; right; exact Hy|].
    exists (w :: ws). constructor; assumption.
Qed.

Lemma convert_elem_of_elem (T B : ty) :
  elem_type T = Some B -> convert_elem_of T = convert_run B.
Proof. intros H. destruct T; try discriminate; injection H as ->; reflexivity. Qed.

Lemma containerCast_spec (T U B A : ty) (c : list val) :
  elem_type T = Some B ->
  elem_type U = Some A ->
  containerCast_wf T U = true ->
  containerCast T U (VSeq c) =
  (ws ← sequence (map (convert B A) c); Returns (VSeq ws)).
Proof.
  intros HB HA Hwf. unfold containerCast, on_value, containerCast_at. rewrite Hwf.
  unfold containerCast_wf in Hwf. apply andb_true_iff in Hwf as [Hg Hi].
  rewrite HB, HA in Hi.
  assert (resizable T = true) as HT
    by (unfold containerCast_guard in Hg; apply andb_true_iff in Hg as [Hg _]; exact Hg).
  rewrite (containerCast_body_spec _ T U B A [VSeq c] 0 c HB HA HT eq_refl).
  rewrite (convert_elem_of_elem T B HB).
  replace (map (convert B A) c) with (map (convert_run B A) c).
  - destruct (sequence (map (convert_run B A) c)); reflexivity.
  - apply map_ext. intros x. rewrite convert_unfold, Hi. reflexivity.
Qed.




(** The guard also rejects a target whose elements are [std::vector]s,
    although a vector of [int] converts to a vector of [double]. *)
Lemma containerCast_nested_vectors_rejected :
  convert (TVector TDouble) (TVector TInt) (vint [1]) =
    Returns (VSeq [VDouble (double_of_int 1)]) /\
  containerCast (TVector (TVector TDouble)) (TVector (TVector TInt))
    (VSeq [vint [1]]) = IllFormed.
Proof. split; vm_compute; reflexivity. Qed.

Lemma arrayCast_spec (T U : ty) (len : N) (l : list val) :
  arrayCast_guard T U = true ->
  instantiates T U = true ->
  N.of_nat (length l) = len ->
  Z.of_N len < uint_modulus ->
  arrayCast T U len (VSeq l) =
  (ws ← sequence (map (convert_expr T U) l); Returns (VSeq ws)).
Proof.
  intros Hg Hi Hlen Hsmall. unfold arrayCast, on_value, arrayCast_at.
  rewrite Hg, Hi. cbn [andb].
  rewrite (arrayCast_body_spec _ T U len [VSeq l] 0 l eq_refl Hlen Hsmall).
  replace (map (convert_expr T U) l) with (map (convert_call_elem (convert_run T) T U) l).
  - destruct (sequence (map (convert_call_elem (convert_run T) T U) l)); reflexivity.
  - apply map_ext. intros x. unfold convert_call_elem, convert_expr.
    destruct (resolve_convert T U); try reflexivity.
    rewrite convert_unfold, Hi. reflexivity.
Qed.

(** Below [2^32] elements, and for an element type other than the target
    element type, [arrayCast<T>] converts index by index. *)
Lemma arrayCast_elementwise (T U : ty) (len : N) (l ws : list val) :
  arrayCast_guard T U = true ->
  instantiates T U = true ->
  N.of_nat (length l) = len ->
  Z.of_N len < uint_modulus ->
  Forall2 (fun x w => convert_expr T U x = Returns w) l ws ->
  arrayCast T U len (VSeq l) = Returns (VSeq ws) /\ N.of_nat (length ws) = len.
Proof.
  intros Hg Hi Hlen Hsmall Hws. split.
  - rewrite (arrayCast_spec T U len l Hg Hi Hlen Hsmall).
    rewrite (Forall2_sequence_map _ _ _ Hws). reflexivity.
  - rewrite <- Hlen. f_equal. symmetry. eapply Forall2_length, Hws.
Qed.

Lemma arrayCast_diverges (T U : ty) (len : N) (l : list val) :
  arrayCast_guard T U = true ->
  instantiates T U = true ->
  N.of_nat (length l) = len ->
  uint_modulus <= Z.of_N len ->
  (forall x, x ∈ l -> exists y, convert_run T U x = Returns y) ->
  arrayCast T U len (VSeq l) = Diverges.
Proof.
  intros Hg Hi Hlen Hbig Hconv. unfold arrayCast, on_value, arrayCast_at.
  rewrite Hg, Hi. cbn [andb].
  rewrite (arrayCast_body_diverges _ T U len [VSeq l] 0 l eq_refl Hlen Hbig).
  - reflexivity.
  - intros x Hx. unfold convert_call_elem, arrayCast_guard in *.
    destruct (resolve_convert T U); try discriminate. apply Hconv, Hx.
Qed.

(** C5.  [arrayCast<double>] on a [std::array<int, 4294967296>] of zeros
    never returns: the loop counter is an [unsigned], it wraps to [0]
    after [4294967295] and so stays below the length for ever. *)
Theorem arrayCast_4294967296_elements_diverges :
  arrayCast TDouble TInt 4294967296
    (VSeq (replicate (N.to_nat 4294967296) (VInt 0))) = Diverges.
Proof.
  apply arrayCast_diverges.
  - reflexivity.
  - reflexivity.
  - rewrite length_replicate. apply N2Nat.id.
  - unfold uint_modulus. lia.
  - intros x Hx. apply elem_of_replicate in Hx as [-> _].
    eexists. vm_compute. reflexivity.
Qed.

(** The guard of [arrayCast] rejects a target element type equal to the
    source element type: the call [convert<T>(x)] in it is ambiguous. *)
Lemma arrayCast_same_element_type (T : ty) (len : N) (array : val) :
  arrayCast T T len array = IllFormed.
Proof.
  unfold arrayCast, on_value, arrayCast_at.
  rewrite arrayCast_guard_irrefl. reflexivity.
Qed.

(** ** The native cast *)

(** C1.  [Celsius] converts to [int] by its conversion operator, so
    [static_cast<int>] of a [Celsius{21}] is [21]; [convert<int>] of it
    compiles and has undefined behaviour, because [Converter::call] tests
    [static_cast<Celsius>(int)] and [containerCast<Celsius>(int)], finds
    neither valid, and ends without a [return]. *)
Theorem convert_ignores_conversion_operator :
  static_cast_valid TInt (TClass Celsius) = true /\
  static_cast TInt (TClass Celsius) (VObj Celsius 21) = Returns (VInt 21) /\
  call_branch (TClass Celsius) TInt = StaticAssertBranch /\
  convert_expr TInt (TClass Celsius) (VObj Celsius 21) = Undefined.
Proof. repeat split. Qed.

(** The same for every native cast that is not valid in the reverse
    direction too, as long as the reverse container test fails as well. *)
Lemma convert_one_way_cast (To From : ty) (v : val) :
  static_cast_valid To From = true ->
  static_cast_valid From To = false ->
  containerCast_guard From To = false ->
  convert To From v = Undefined.
Proof.
  intros Hfwd Hrev Hcon. unfold convert, on_value, convert_at, instantiates.
  cbn [instantiates_fuel]. unfold Converter_call.
  rewrite (Converter_select_static To From Hfwd).
  unfold call_branch, expressionValid, ValidStaticCast, ValidContainerCast.
  rewrite Hrev, Hcon. reflexivity.
Qed.

(** With standard types only: [static_cast<std::vector<int>>(3)] is a
    vector of three zeros, [convert<std::vector<int>>(3)] is undefined. *)
Lemma convert_ignores_size_constructor :
  static_cast (TVector TInt) TInt (VInt 3) = Returns (vint [0; 0; 0]) /\
  convert_expr (TVector TInt) TInt (VInt 3) = Undefined.
Proof. split; reflexivity. Qed.

(** C7.  No strategy converts an [Opaque] to an [int]; [convert<int>] of
    an [Opaque] is accepted all the same, because the condition of the
    [static_assert] is [true] for every type, and the call then ends
    without a [return]. *)
Theorem convert_without_strategy_is_accepted :
  applicable NativeCast (TClass Opaque) TInt = false /\
  applicable ContainerCast (TClass Opaque) TInt = false /\
  applicable ArrayCast (TClass Opaque) TInt = false /\
  instantiates TInt (TClass Opaque) = true /\
  convert_expr TInt (TClass Opaque) (VObj Opaque 7) = Undefined.
Proof. repeat split. Qed.

(** Whenever [call] reaches its last branch the program is accepted and
    the call has undefined behaviour. *)
Lemma convert_static_assert_branch (To From : ty) (v : val) :
  Converter_select From To = GeneralConverter ->
  call_branch From To = StaticAssertBranch ->
  convert To From v = Undefined.
Proof.
  intros Hsel Hbr. unfold convert, on_value, convert_at, instantiates.
  cbn [instantiates_fuel]. unfold Converter_call. rewrite Hsel, Hbr.
  reflexivity.
Qed.

(** ** Precedence *)

Lemma static_cast_valid_containers (To From : ty) :
  containerCast_guard To From = true ->
  static_cast_valid To From = true ->
  To = From \/ exists e, From = TInitList e /\ (To = TVector e \/ To = TList e).
Proof.
  unfold static_cast_valid, containerCast_guard. intros Hg.
  destruct (decide (To = From)); [auto|].
  destruct To; try discriminate; destruct From; try discriminate;
    intros H; apply bool_decide_eq_true in H as ->; eauto.
Qed.

Lemma static_cast_valid_resizable (To From : ty) :
  containerCast_guard To From = true ->
  static_cast_valid To From = true ->
  resizable From = true ->
  To = From.
Proof.
  intros Hg Hs Hr.
  destruct (static_cast_valid_containers To From Hg Hs) as [H|(e & -> & _)];
    [exact H|discriminate].
Qed.

Lemma static_cast_valid_refl (T : ty) : static_cast_valid T T = true.
Proof. unfold static_cast_valid. destruct (decide (T = T)); [reflexivity|contradiction]. Qed.

Lemma applicable_array_not_native (From To : ty) :
  applicable ArrayCast From To = true -> applicable NativeCast From To = false.
Proof.
  simpl. destruct From as [| | |F l1| | |]; try discriminate.
  destruct To as [| | |T l2| | |]; try discriminate.
  intros H. apply andb_true_iff in H as [_ Hg]. apply arrayCast_guard_ne in Hg.
  destruct (static_cast_valid (TArray T l2) (TArray F l1)) eqn:E; [|reflexivity].
  apply static_cast_valid_array in E. congruence.
Qed.

Lemma applicable_array_not_container (From To : ty) :
  applicable ArrayCast From To = true -> applicable ContainerCast From To = false.
Proof.
  simpl. destruct From as [| | |F l1| | |]; try discriminate.
  destruct To as [| | |T l2| | |]; try discriminate. reflexivity.
Qed.

(** More than one strategy is applicable to a pair only when the native
    cast and the container cast both are: for a [std::vector] or
    [std::list] converted to its own type, and for a
    [std::initializer_list] converted to a [std::vector] or [std::list]
    of its element type. *)
Lemma two_applicable_strategies (From To : ty) :
  (1 < applicable_count From To)%nat ->
  applicable NativeCast From To = true /\
  applicable ContainerCast From To = true /\
  (To = From \/ exists e, From = TInitList e /\ (To = TVector e \/ To = TList e)).
Proof.
  unfold applicable_count, spec_precedence. cbn [List.filter].
  destruct (applicable ArrayCast From To) eqn:Ha.
  - rewrite (applicable_array_not_native From To Ha),
      (applicable_array_not_container From To Ha).
    simpl. lia.
  - destruct (applicable NativeCast From To) eqn:Hn;
      destruct (applicable ContainerCast From To) eqn:Hc; simpl; try lia.
    intros _. split; [reflexivity|]. split; [reflexivity|].
    apply static_cast_valid_containers; assumption.
Qed.

(** [Converter::call] hands the pair to its tests in the order
    [From, To], and the aliases take it as [To, From]: the strategy it
    selects for a pair is the one the precedence order puts first for
    the reversed pair. *)
Lemma selection_is_precedence_of_reversed_pair (From To : ty) :
  selected_strategy From To = spec_selected To From.
Proof.
  unfold selected_strategy, spec_selected, spec_precedence. cbn [List.find applicable].
  destruct (Converter_select From To) as [|F T len] eqn:Hsel.
  - unfold call_branch, expressionValid, ValidStaticCast, ValidContainerCast.
    destruct (static_cast_valid From To); [reflexivity|].
    destruct (containerCast_guard From To); [reflexivity|].
    unfold Converter_select, ValidArrayCast in Hsel.
    destruct From as [| | |F l1| | |]; try reflexivity;
      destruct To as [| | |T l2| | |]; try reflexivity.
    destruct (bool_decide (l1 = l2)) eqn:El; cbn [andb] in Hsel.
    + destruct (arrayCast_guard T F) eqn:Hg; [discriminate|].
      apply bool_decide_eq_true in El as ->.
      rewrite bool_decide_true by reflexivity. cbn [andb].
      destruct (arrayCast_guard F T) eqn:Hg'; [|reflexivity].
      apply arrayCast_guard_ne in Hg'.
      assert (arrayCast_guard T F = true) by (apply arrayCast_guard_ne; congruence).
      congruence.
    + apply bool_decide_eq_false in El.
      rewrite bool_decide_false by congruence. reflexivity.
  - apply Converter_select_array in Hsel as (-> & -> & Hg).
    assert (Hne : T <> F) by (apply arrayCast_guard_ne, Hg).
    assert (static_cast_valid (TArray F len) (TArray T len) = false) as ->.
    { destruct (static_cast_valid (TArray F len) (TArray T len)) eqn:E; [|reflexivity].
      apply static_cast_valid_array in E. congruence. }
    assert (containerCast_guard (TArray F len) (TArray T len) = false) as -> by reflexivity.
    rewrite bool_decide_true by reflexivity. cbn [andb].
    assert (arrayCast_guard F T = true) as -> by (apply arrayCast_guard_ne; congruence).
    reflexivity.
Qed.

(** C6.  The precedence order does not decide what [convert<To>] does
    with a pair to which more than one strategy is applicable.  For every
    such pair the order puts the native cast first.  Either the pair is a
    type with itself, and the call [convert<To>(v)] is rejected as
    ambiguous between the two overloads of [convert]; or
    [Converter::call], which tests the reversed pair, selects no strategy
    at all, and the call ends without a [return].  In no case does
    [convert<To>(v)] return a value. *)
Theorem selection_ignores_precedence (From To : ty) :
  (1 < applicable_count From To)%nat ->
  spec_selected From To = Some NativeCast /\
  (To = From \/ selected_strategy From To = None) /\
  forall v w, convert_expr To From v <> Returns w.
Proof.
  intros H. destruct (two_applicable_strategies From To H) as (Hn & Hc & Hpair).
  split; [unfold spec_selected, spec_precedence; cbn [List.find]; rewrite Hn; reflexivity|].
  destruct Hpair as [->|(e & -> & HTo)].
  - split; [left; reflexivity|]. intros v w. rewrite convert_expr_same. discriminate.
  - assert (Hnone : selected_strategy (TInitList e) To = None).
    { destruct HTo as [->| ->];
        unfold selected_strategy, call_branch, expressionValid,
          ValidStaticCast, ValidContainerCast, static_cast_valid; cbn;
        match goal with |- context [decide ?P] => destruct (decide P) end;
        try discriminate; reflexivity. }
    split; [right; exact Hnone|]. intros v w.
    rewrite convert_expr_other by (destruct HTo as [->| ->]; discriminate).
    unfold selected_strategy in Hnone.
    destruct (Converter_select (TInitList e) To) eqn:Hsel; [|discriminate].
    destruct (call_branch (TInitList e) To) eqn:Hbr; try discriminate.
    rewrite (convert_static_assert_branch To (TInitList e) v Hsel Hbr). discriminate.
Qed.

Lemma selection_ignores_precedence_witness :
  (1 < applicable_count (TInitList TInt) (TVector TInt))%nat /\
  spec_selected (TInitList TInt) (TVector TInt) = Some NativeCast /\
  selected_strategy (TInitList TInt) (TVector TInt) = None /\
  static_cast (TVector TInt) (TInitList TInt) (vint [4; 5]) = Returns (vint [4; 5]) /\
  containerCast (TVector TInt) (TInitList TInt) (vint [4; 5]) = Returns (vint [4; 5]) /\
  convert_expr (TVector TInt) (TInitList TInt) (vint [4; 5]) = Undefined /\
  convert_expr (TVector TInt) (TVector TInt) (vint [4; 5]) = IllFormed.
Proof.
  destruct (selection_ignores_precedence (TInitList TInt) (TVector TInt))
    as (Hspec & [Heq|Hnone] & _); [vm_compute; lia| |]; [discriminate Heq|].
  split; [vm_compute; lia|]. split; [exact Hspec|]. split; [exact Hnone|].
  repeat split.
Defined.

(** ** Sources are left alone *)

Lemma frame_preserving_returns (body : nat -> store -> outcome (nat * store))
    (σ σ' : store) (src r : nat) (v : val) :
  frame_preserving body ->
  σ !! src = Some v ->
  body src σ = Returns (r, σ') ->
  exists w, on_value body v = Returns w /\ r = length σ /\ σ' = σ ++ [w].
Proof.
  intros Hf Hsrc H. rewrite (Hf σ src v Hsrc) in H.
  destruct (on_value body v) as [w|e]; try discriminate.
  exists w. unfold omap, alloc in H. rewrite bind_Returns in H.
  injection H as <- <-. auto.
Qed.

Lemma containerCast_type (T U : ty) (v w : val) :
  has_type U v = true ->
  containerCast T U v = Returns w ->
  has_type T w = true /\ size w = size v.
Proof.
  intros Hv H. unfold containerCast, on_value, containerCast_at in H.
  destruct (containerCast_wf T U) eqn:Hwf; [|discriminate].
  unfold containerCast_wf in Hwf. apply andb_true_iff in Hwf as [Hg _].
  destruct (elem_type T) as [B|] eqn:HB.
  - apply (containerCast_value_type (convert_elem_of T) B) with (U := U); auto.
    rewrite (convert_elem_of_elem T B HB). intros A x y. apply convert_run_type.
  - unfold containerCast_guard in Hg. rewrite HB in Hg.
    apply andb_true_iff in Hg as [_ Hg]. discriminate.
Qed.

Lemma arrayCast_type (T U : ty) (len : N) (v w : val) :
  has_type (TArray U len) v = true ->
  arrayCast T U len v = Returns w ->
  has_type (TArray T len) w = true /\ size w = size v.
Proof.
  intros Hv H. unfold arrayCast, on_value, arrayCast_at in H.
  destruct (arrayCast_guard T U && instantiates T U); [|discriminate].
  apply (arrayCast_value_type (convert_run T) T) with (U := U); auto.
  intros A x y. apply convert_run_type.
Qed.

Lemma run_conversion_frame (c : conversion) (To From : ty) :
  frame_preserving (run_conversion c To From).
Proof.
  destruct c; simpl.
  - apply convert_at_frame.
  - apply convert_at_frame.
  - apply containerCast_at_frame.
  - destruct To as [| | |T len'| | |], From as [| | |U len| | |];
      try (apply frame_preserving_intro; intros v; exists IllFormed; reflexivity).
    change (frame_preserving
              (fun src σ => if decide (len' = len)
                            then arrayCast_at T U len src σ else IllFormed)).
    destruct (decide (len' = len)).
    + apply arrayCast_at_frame.
    + apply frame_preserving_intro. intros v. exists IllFormed. reflexivity.
Qed.

Lemma run_conversion_type (c : conversion) (To From : ty) (v w : val) :
  has_type From v = true ->
  on_value (run_conversion c To From) v = Returns w ->
  has_type To w = true /\ size w = size v.
Proof.
  intros Hv. destruct c; simpl.
  - apply convert_type, Hv.
  - apply convert_type, Hv.
  - apply containerCast_type, Hv.
  - destruct To as [| | |T len'| | |], From as [| | |U len| | |]; try discriminate.
    unfold on_value. cbn [run_conversion].
    destruct (decide (len' = len)) as [->|]; [|discriminate].
    apply arrayCast_type, Hv.
Qed.

(** C8.  Whichever conversion operation runs on a source object of a
    store ([convert], the conversion of an [AutoCastable], [containerCast],
    [arrayCast]): when it returns, the source and every other object of
    the store are as they were, the result is a new object, it has the
    target type, and it has as many elements as the source. *)
Theorem conversions_preserve_source (c : conversion) (To From : ty)
    (σ σ' : store) (src r : nat) (v : val) :
  σ !! src = Some v ->
  has_type From v = true ->
  run_conversion c To From src σ = Returns (r, σ') ->
  σ' !! src = Some v /\
  (forall a u, σ !! a = Some u -> σ' !! a = Some u) /\
  σ !! r = None /\
  exists w, σ' !! r = Some w /\ has_type To w = true /\ size w = size v.
Proof.
  intros Hsrc Hv H.
  destruct (frame_preserving_returns _ σ σ' src r v
              (run_conversion_frame c To From) Hsrc H) as (w & Hw & -> & ->).
  split; [apply lookup_alloc_old, Hsrc|].
  split; [intros a u; apply lookup_alloc_old|].
  split; [apply lookup_ge_None; lia|].
  exists w. split; [apply lookup_alloc_new|].
  apply (run_conversion_type c To From v w Hv Hw).
Qed.

Lemma conversions_preserve_source_witness :
  [VInt 9; vint [4; 5]] !! 1%nat = Some (vint [4; 5]) /\
  exists w,
    run_conversion ViaContainerCast (TList TDouble) (TVector TInt) 1
      [VInt 9; vint [4; 5]] = Returns (2%nat, [VInt 9; vint [4; 5]; w]) /\
    [VInt 9; vint [4; 5]; w] !! 1%nat = Some (vint [4; 5]) /\
    has_type (TList TDouble) w = true /\ size w = 2%nat.
Proof.
  split; [reflexivity|].
  exists (VSeq [VDouble (double_of_int 4); VDouble (double_of_int 5)]).
  assert (run_conversion ViaContainerCast (TList TDouble) (TVector TInt) 1
            [VInt 9; vint [4; 5]] =
          Returns (2%nat, [VInt 9; vint [4; 5];
                           VSeq [VDouble (double_of_int 4); VDouble (double_of_int 5)]]))
    as Hrun by (vm_compute; reflexivity).
  split; [exact Hrun|].
  destruct (conversions_preserve_source ViaContainerCast (TList TDouble) (TVector TInt)
              [VInt 9; vint [4; 5]] _ 1 2 (vint [4; 5]) eq_refl eq_refl Hrun)
    as (Hsrc & _ & _ & w & Hw & Ht & Hs).
  split; [exact Hsrc|]. injection Hw as <-. split; [exact Ht|exact Hs].
Defined.

(** ** The deferred form *)

(** Where the direct form [convert<O>(v)] returns a value, the
    conversion function of the [AutoCastable] built by [convert(v)]
    returns the same value, as a new object of the store. *)
Lemma AutoCastable_operator_agrees (O T : ty) (σ : store) (src : nat) (v w : val) :
  σ !! src = Some v ->
  convert_expr O T v = Returns w ->
  AutoCastable_operator O T (convert_deferred src) σ = Returns (length σ, σ ++ [w]).
Proof.
  intros Hsrc H. apply convert_expr_returns in H as [_ H].
  unfold AutoCastable_operator, convert_deferred. cbn [object_].
  rewrite (convert_at_frame O T σ src v Hsrc).
  change (on_value (convert_at O T) v) with (convert O T v). rewrite H. reflexivity.
Qed.

(** A context that accepts the deferred form runs [convert<O, T>]. *)
Lemma deferred_request_accepted (c : request) (O T : ty) (v : val) :
  c = Initialisation \/ deferred_assignable O = true ->
  deferred_request c O T v = convert O T v.
Proof.
  intros H. unfold deferred_request, deferred_in.
  destruct c; [reflexivity|].
  destruct H as [H|H]; [discriminate|]. rewrite H. reflexivity.
Qed.

(** C10.  The deferred form does not agree with the direct form.  Where
    the requested type is the type [T] of the source, the direct form
    [convert<T>(v)] is rejected, being ambiguous between the two
    overloads of [convert], and the deferred form returns a copy of [v].
    Where a [std::vector] or [std::list] is assigned to, the deferred
    form is rejected, the [AutoCastable] being ambiguous between the
    assignment operators of the container, whatever the direct form
    does. *)
Theorem deferred_differs_from_direct (c : request) (O T : ty) (v : val) :
  (direct_request c T T v = IllFormed /\
   deferred_request Initialisation T T v = Returns v) /\
  (resizable O = true -> deferred_request Assignment O T v = IllFormed).
Proof.
  split; [split|].
  - apply convert_expr_same.
  - rewrite deferred_request_accepted by (left; reflexivity).
    rewrite convert_static_cast by apply static_cast_valid_refl.
    unfold static_cast. destruct (decide (T = T)); [reflexivity|contradiction].
  - intros HO. unfold deferred_request, deferred_in.
    destruct O; try discriminate; reflexivity.
Qed.

Lemma deferred_differs_from_direct_witness :
  direct_request Initialisation TInt TInt (VInt 7) = IllFormed /\
  deferred_request Initialisation TInt TInt (VInt 7) = Returns (VInt 7) /\
  direct_request Assignment (TVector TDouble) (TVector TInt) (vint [4; 5]) =
    Returns (VSeq [VDouble (double_of_int 4); VDouble (double_of_int 5)]) /\
  deferred_request Initialisation (TVector TDouble) (TVector TInt) (vint [4; 5]) =
    Returns (VSeq [VDouble (double_of_int 4); VDouble (double_of_int 5)]) /\
  deferred_request Assignment (TVector TDouble) (TVector TInt) (vint [4; 5]) = IllFormed.
Proof.
  destruct (deferred_differs_from_direct Initialisation (TVector TDouble) TInt (VInt 7))
    as [[Hd Hc] _].
  destruct (deferred_differs_from_direct Assignment (TVector TDouble) (TVector TInt)
              (vint [4; 5])) as [_ Ha].
  split; [exact Hd|]. split; [exact Hc|].
  split; [vm_compute; reflexivity|]. split; [vm_compute; reflexivity|].
  apply Ha. reflexivity.
Defined.

(** The deferred form also converts to the type of the source itself,
    where the direct form is ambiguous. *)
Lemma deferred_same_type (T : ty) (σ : store) (src : nat) (v : val) :
  σ !! src = Some v ->
  AutoCastable_operator T T (convert_deferred src) σ = Returns (length σ, σ ++ [v]) /\
  convert_expr T T v = IllFormed.
Proof.
  intros Hsrc. split; [|apply convert_expr_same].
  unfold AutoCastable_operator, convert_deferred. cbn [object_].
  rewrite (convert_at_frame T T σ src v Hsrc).
  change (on_value (convert_at T T) v) with (convert T T v).
  rewrite convert_static_cast by apply static_cast_valid_refl.
  unfold static_cast. destruct (decide (T = T)); [reflexivity|contradiction].
Qed.

(** ** Round trips *)

(** [double_of_int] is exact on every [int]: the value has at most 32
    binary digits, so it is shifted left into a mantissa of 53 digits and
    nothing is rounded away. *)
Lemma digits2_pos_bounds (p : positive) :
  2 ^ (Z.pos (digits2_pos p) - 1) <= Z.pos p < 2 ^ Z.pos (digits2_pos p).
Proof.
  induction p as [p IH|p IH|]; cbn [digits2_pos].
  - rewrite Pos2Z.inj_succ.
    replace (Z.succ (Z.pos (digits2_pos p)) - 1)
      with (Z.succ (Z.pos (digits2_pos p) - 1)) by lia.
    rewrite !Z.pow_succ_r by lia. lia.
  - rewrite Pos2Z.inj_succ.
    replace (Z.succ (Z.pos (digits2_pos p)) - 1)
      with (Z.succ (Z.pos (digits2_pos p) - 1)) by lia.
    rewrite !Z.pow_succ_r by lia. lia.
  - simpl. lia.
Qed.

Lemma iter_xO_spec (k p : positive) :
  Z.pos (Pos.iter xO p k) = Z.pos p * 2 ^ Z.pos k /\
  digits2_pos (Pos.iter xO p k) = (digits2_pos p + k)%positive.
Proof.
  induction k as [|k IH] using Pos.peano_ind.
  - simpl. split; [lia|]. lia.
  - rewrite Pos.iter_succ. destruct IH as [IHv IHd]. split.
    + rewrite Pos2Z.inj_xO, IHv, Pos2Z.inj_succ, Z.pow_succ_r by lia. lia.
    + cbn [digits2_pos]. rewrite IHd. lia.
Qed.

Lemma binary_round_small (s : bool) (p : positive) :
  Z.pos p <= 2 ^ 31 ->
  exists k : positive,
    binary_round 53 1024 s p 0 = S754_finite s (Pos.iter xO p k) (- Z.pos k) /\
    Z.pos k = 53 - Z.pos (digits2_pos p).
Proof.
  intros Hp.
  pose proof (digits2_pos_bounds p) as [Hlo _].
  assert (Hd : Z.pos (digits2_pos p) <= 32).
  { destruct (Z_le_gt_dec (Z.pos (digits2_pos p)) 32) as [H|H]; [exact H|].
    exfalso.
    assert (2 ^ 32 <= 2 ^ (Z.pos (digits2_pos p) - 1)) by (apply Z.pow_le_mono_r; lia).
    lia. }
  unfold binary_round, shl_align.
  replace (fexp 53 1024 (Z.pos (digits2_pos p) + 0)) with (Z.pos (digits2_pos p) - 53)
    by (unfold fexp, emin; lia).
  destruct (Z.pos (digits2_pos p) - 53 - 0) as [|q|k] eqn:E; try lia.
  exists k. split; [|lia].
  destruct (iter_xO_spec k p) as [_ Hdig].
  unfold binary_round_aux, shr_fexp.
  cbn [Zdigits2]. rewrite Hdig.
  replace (fexp 53 1024 (Z.pos (digits2_pos p + k) + (Z.pos (digits2_pos p) - 53)) -
           (Z.pos (digits2_pos p) - 53)) with 0
    by (unfold fexp, emin; lia).
  cbn [shr_record_of_loc shr shr_m loc_of_shr_record round_nearest_even Zdigits2].
  rewrite Hdig.
  replace (fexp 53 1024 (Z.pos (digits2_pos p + k) + (Z.pos (digits2_pos p) - 53)) -
           (Z.pos (digits2_pos p) - 53)) with 0
    by (unfold fexp, emin; lia).
  cbn [shr shr_m].
  replace (Z.pos (digits2_pos p) - 53) with (- Z.pos k) by lia.
  destruct (- Z.pos k <=? 1024 - 53) eqn:El; [reflexivity|].
  apply Z.leb_gt in El. lia.
Qed.

Lemma truncate_double_of_int (z : Z) :
  - 2 ^ 31 <= z <= 2 ^ 31 -> truncate (double_of_int z) = Some z.
Proof.
  intros Hz. unfold double_of_int, binary_normalize.
  destruct z as [|p|p].
  - reflexivity.
  - destruct (binary_round_small false p) as (k & -> & Hk); [lia|].
    destruct (iter_xO_spec k p) as [Hv _].
    unfold truncate. change (0 <=? - Z.pos k) with false. cbn iota.
    rewrite Z.opp_involutive, Hv, Z.div_mul by lia. reflexivity.
  - destruct (binary_round_small true p) as (k & -> & Hk); [lia|].
    destruct (iter_xO_spec k p) as [Hv _].
    unfold truncate. change (0 <=? - Z.pos k) with false. cbn iota.
    rewrite Z.opp_involutive, Hv, Z.div_mul by lia. reflexivity.
Qed.

Lemma int_of_double_of_int (z : Z) :
  in_int z = true -> int_of_double (double_of_int z) = Some z.
Proof.
  intros Hz. unfold int_of_double.
  assert (int_min <= z <= int_max).
  { unfold in_int in Hz. apply andb_true_iff in Hz as [H1 H2].
    apply Z.leb_le in H1, H2. lia. }
  rewrite truncate_double_of_int.
  - rewrite Hz. reflexivity.
  - unfold int_min, int_max in *. lia.
Qed.

Lemma convert_double_of_int (z : Z) :
  convert TDouble TInt (VInt z) = Returns (VDouble (double_of_int z)).
Proof. rewrite convert_static_cast by reflexivity. reflexivity. Qed.

Lemma convert_int_of_double_of_int (z : Z) :
  in_int z = true -> convert TInt TDouble (VDouble (double_of_int z)) = Returns (VInt z).
Proof.
  intros Hz. rewrite convert_static_cast by reflexivity.
  unfold static_cast. cbn. rewrite (int_of_double_of_int z Hz). reflexivity.
Qed.

(** X1.  Round trip: for every value [z] of an [int],
    [convert<int>(convert<double>(z))] returns [z]. *)
Theorem convert_int_double_round_trip (z : Z) :
  in_int z = true ->
  (d ← convert_expr TDouble TInt (VInt z); convert_expr TInt TDouble d) =
  Returns (VInt z).
Proof.
  intros Hz. rewrite !convert_expr_other by discriminate.
  rewrite convert_double_of_int. cbn [mbind outcome_bind obind].
  rewrite convert_expr_other by discriminate.
  apply convert_int_of_double_of_int, Hz.
Qed.

Lemma convert_int_double_round_trip_witness :
  in_int (-2147483648) = true /\
  (d ← convert_expr TDouble TInt (VInt (-2147483648)); convert_expr TInt TDouble d) =
  Returns (VInt (-2147483648)).
Proof.
  split; [reflexivity|].
  apply (convert_int_double_round_trip (-2147483648)). reflexivity.
Defined.

(** ** Converting to the source's own type *)

Lemma convert_same (T : ty) (v : val) : convert T T v = Returns v.
Proof.
  rewrite convert_static_cast by apply static_cast_valid_refl.
  unfold static_cast. destruct (decide (T = T)); [reflexivity|contradiction].
Qed.

Lemma instantiates_same (T : ty) : instantiates T T = true.
Proof.
  pose proof (convert_same T (value_init T)) as H.
  rewrite convert_unfold in H. destruct (instantiates T T); [reflexivity|discriminate].
Qed.

(** X2.  To convert a value to its own type [T]: the call [convert<T>(x)]
    and [arrayCast<T>] of a [std::array<T, I>] are rejected (the inner
    call is ambiguous between the two overloads of [convert]), the
    two-argument form [convert<T, T>(x)] returns a copy of [x], and so
    does the deferred form [T y = convert(x)], which leaves every object
    of the store as it was. *)
Theorem conversion_to_own_type (T : ty) (len : N) (σ : store) (src : nat) (v : val) :
  σ !! src = Some v ->
  convert_expr T T v = IllFormed /\
  arrayCast T T len v = IllFormed /\
  convert T T v = Returns v /\
  AutoCastable_operator T T (convert_deferred src) σ = Returns (length σ, σ ++ [v]).
Proof.
  intros Hsrc. split; [apply convert_expr_same|].
  split; [unfold arrayCast, on_value, arrayCast_at;
          rewrite arrayCast_guard_irrefl; reflexivity|].
  split; [apply convert_same|].
  unfold AutoCastable_operator, convert_deferred. cbn [object_].
  rewrite (convert_at_frame T T σ src v Hsrc).
  change (on_value (convert_at T T) v) with (convert T T v).
  rewrite convert_same. reflexivity.
Qed.

Lemma conversion_to_own_type_witness :
  [VInt 9; vint [4; 5]] !! 1%nat = Some (vint [4; 5]) /\
  convert_expr (TVector TInt) (TVector TInt) (vint [4; 5]) = IllFormed /\
  convert (TVector TInt) (TVector TInt) (vint [4; 5]) = Returns (vint [4; 5]) /\
  AutoCastable_operator (TVector TInt) (TVector TInt) (convert_deferred 1)
    [VInt 9; vint [4; 5]] = Returns (2%nat, [VInt 9; vint [4; 5]; vint [4; 5]]).
Proof.
  destruct (conversion_to_own_type (TVector TInt) 2 [VInt 9; vint [4; 5]] 1
              (vint [4; 5]) eq_refl) as (H1 & _ & H3 & H4).
  split; [reflexivity|]. split; [exact H1|]. split; [exact H3|exact H4].
Defined.

(** ** [containerCast] *)

Lemma sequence_map_Returns {A : Type} (l : list A) :
  sequence (map Returns l) = Returns l.
Proof. apply sequence_returns. reflexivity. Qed.

(** X3.  Between containers with the same element type, [containerCast]
    copies the sequence of elements as it is: from a [std::vector],
    [std::list] or [std::array] of [B] into a [std::vector] or
    [std::list] of [B].  In particular vector to list to vector is the
    identity. *)
Theorem containerCast_same_element_type (T U B : ty) (c : list val) :
  elem_type T = Some B ->
  elem_type U = Some B ->
  resizable T = true ->
  deferred_assignable B = true ->
  containerCast T U (VSeq c) = Returns (VSeq c).
Proof.
  intros HT HU Hr Ha.
  rewrite (containerCast_spec T U B B c HT HU).
  - replace (map (convert B B) c) with (map (@Returns val) c)
      by (apply map_ext; intros x; symmetry; apply convert_same).
    rewrite sequence_map_Returns. reflexivity.
  - unfold containerCast_wf, containerCast_guard. rewrite Hr, HT, HU, Ha.
    apply instantiates_same.
Qed.

Lemma containerCast_same_element_type_witness :
  containerCast (TList TInt) (TVector TInt) (vint [4; 5]) = Returns (vint [4; 5]) /\
  containerCast (TVector TInt) (TList TInt) (vint [4; 5]) = Returns (vint [4; 5]).
Proof.
  split.
  - apply (containerCast_same_element_type (TList TInt) (TVector TInt) TInt
             [VInt 4; VInt 5]); reflexivity.
  - apply (containerCast_same_element_type (TVector TInt) (TList TInt) TInt
             [VInt 4; VInt 5]); reflexivity.
Defined.

Lemma sequence_app {A : Type} (ms ns : list (outcome A)) :
  sequence (ms ++ ns) = (xs ← sequence ms; ys ← sequence ns; Returns (xs ++ ys)).
Proof.
  induction ms as [|m ms IH]; simpl.
  - destruct (sequence ns); reflexivity.
  - destruct m as [x|f]; simpl; [|reflexivity].
    rewrite IH. destruct (sequence ms) as [xs|f]; simpl; [|reflexivity].
    destruct (sequence ns); reflexivity.
Qed.

Lemma sequence_first_failure {A B : Type} (g : A -> outcome B)
    (pre : list A) (x : A) (post : list A) (f : failure) :
  (forall y, y ∈ pre -> exists w, g y = Returns w) ->
  g x = Fails f ->
  sequence (map g (pre ++ x :: post)) = Fails f.
Proof.
  intros Hpre Hx.
  destruct (Forall2_exists g pre Hpre) as [ws Hws].
  rewrite map_app, sequence_app, (Forall2_sequence_map _ _ _ Hws).
  simpl. rewrite Hx. reflexivity.
Qed.

(** X4.  [containerCast] has undefined behaviour as soon as the
    conversion of an element it reaches has: when the elements before a
    position convert and the conversion of the element at that position
    has undefined behaviour (a [double] outside the range of [int], say),
    the whole call has undefined behaviour, whatever follows.  The loop
    has no check of its own, so nothing is guaranteed about what such a
    call returns. *)
Theorem containerCast_undefined_element (T U B A : ty) (pre : list val) (x : val)
    (post : list val) :
  elem_type T = Some B ->
  elem_type U = Some A ->
  containerCast_wf T U = true ->
  (forall y, y ∈ pre -> exists w, convert B A y = Returns w) ->
  convert B A x = Undefined ->
  containerCast T U (VSeq (pre ++ x :: post)) = Undefined.
Proof.
  intros HB HA Hwf Hpre Hx.
  rewrite (containerCast_spec T U B A _ HB HA Hwf).
  rewrite (sequence_first_failure _ pre x post UndefinedBehaviour Hpre Hx). reflexivity.
Qed.

Lemma containerCast_undefined_element_witness :
  convert TInt TDouble (VDouble (S754_infinity false)) = Undefined /\
  containerCast (TVector TInt) (TVector TDouble)
    (VSeq ([VDouble (double_of_int 1)] ++
           VDouble (S754_infinity false) :: [VDouble (double_of_int 3)])) = Undefined.
Proof.
  split; [reflexivity|].
  apply (containerCast_undefined_element (TVector TInt) (TVector TDouble) TInt TDouble
           [VDouble (double_of_int 1)] (VDouble (S754_infinity false))
           [VDouble (double_of_int 3)]); try reflexivity.
  intros y Hy. apply elem_of_cons in Hy as [->|Hy].
  - eexists. vm_compute. reflexivity.
  - apply elem_of_nil in Hy. destruct Hy.
Defined.



(** X6.  A container of [int]s survives the trip through a container of
    [double]s: [containerCast] into any [std::vector] or [std::list] of
    [double] and back into one of [int] returns the [int]s it started
    from, in their order. *)
Theorem containerCast_int_double_round_trip (S M D : ty) (l : list Z) :
  elem_type S = Some TInt ->
  elem_type M = Some TDouble ->
  elem_type D = Some TInt ->
  resizable M = true ->
  resizable D = true ->
  forallb in_int l = true ->
  (c ← containerCast M S (vint l); containerCast D M c) = Returns (vint l).
Proof.
  intros HS HM HD HrM HrD Hl. unfold vint.
  rewrite (containerCast_spec M S TDouble TInt _ HM HS)
    by (unfold containerCast_wf, containerCast_guard; rewrite HrM, HM, HS; reflexivity).
  rewrite (Forall2_sequence_map _ _ (map (fun z => VDouble (double_of_int z)) l)).
  2:{ apply Forall2_fmap. apply Forall2_same_length_lookup_2; [reflexivity|].
      intros i z z' Hz Hz'. rewrite Hz in Hz'. injection Hz' as <-.
      apply convert_double_of_int. }
  cbn [mbind outcome_bind obind].
  rewrite (containerCast_spec D M TInt TDouble _ HD HM)
    by (unfold containerCast_wf, containerCast_guard; rewrite HrD, HD, HM; reflexivity).
  rewrite (Forall2_sequence_map _ _ (map VInt l)); [reflexivity|].
  apply Forall2_fmap. apply Forall2_same_length_lookup_2; [reflexivity|].
  intros i z z' Hz Hz'. rewrite Hz in Hz'. injection Hz' as <-.
  apply convert_int_of_double_of_int.
  apply forallb_forall with (x := z) in Hl; [exact Hl|].
  apply list_elem_of_In. eapply list_elem_of_lookup_2, Hz.
Qed.

Lemma containerCast_int_double_round_trip_witness :
  (c ← containerCast (TList TDouble) (TVector TInt) (vint [4; -5; 2147483647]);
   containerCast (TVector TInt) (TList TDouble) c) = Returns (vint [4; -5; 2147483647]).
Proof.
  apply (containerCast_int_double_round_trip (TVector TInt) (TList TDouble) (TVector TInt)
           [4; -5; 2147483647]); reflexivity.
Defined.

(** ** [arrayCast] *)



(** X8.  [arrayCast] never returns an array of [2^32] or more elements,
    whatever the element types and the source: the loop counter is an
    [unsigned] and cannot reach the length. *)
Theorem arrayCast_long_array_never_returns (T U : ty) (len : N) (array w : val) :
  uint_modulus <= Z.of_N len ->
  arrayCast T U len array <> Returns w.
Proof.
  intros Hbig H. unfold arrayCast, on_value, arrayCast_at in H.
  destruct (arrayCast_guard T U && instantiates T U); [|discriminate].
  apply obind_returns in H as (p & Hp & _).
  apply arrayCast_body_returns_small in Hp. lia.
Qed.

Lemma arrayCast_long_array_never_returns_witness :
  uint_modulus <= Z.of_N 4294967296 /\
  arrayCast TDouble TInt 4294967296 (VSeq (replicate (N.to_nat 4294967296) (VInt 0))) <>
  Returns (VSeq (replicate (N.to_nat 4294967296) (VDouble (double_of_int 0)))).
Proof.
  split; [unfold uint_modulus; lia|].
  apply (arrayCast_long_array_never_returns TDouble TInt 4294967296).
  unfold uint_modulus. lia.
Defined.

(** ** What [convert] delegates to *)

Lemma Converter_select_arrays (T U : ty) (len : N) :
  T <> U -> Converter_select (TArray U len) (TArray T len) = ArrayConverter U T len.
Proof.
  intros Hne. unfold Converter_select, ValidArrayCast.
  rewrite bool_decide_true by reflexivity.
  rewrite (proj2 (arrayCast_guard_ne T U) Hne). reflexivity.
Qed.

Lemma instantiates_fuel_arrays (fuel : nat) (T U : ty) (len : N) :
  T <> U ->
  instantiates_fuel (S fuel) (TArray T len) (TArray U len) = instantiates_fuel fuel T U.
Proof.
  intros Hne. cbn [instantiates_fuel].
  rewrite (Converter_select_arrays T U len Hne). reflexivity.
Qed.

Lemma instantiates_arrays (T U : ty) (len : N) :
  T <> U -> instantiates (TArray T len) (TArray U len) = instantiates T U.
Proof.
  intros Hne. unfold instantiates.
  rewrite (instantiates_fuel_arrays _ T U len Hne).
  apply instantiates_fuel_enough; cbn [ty_depth]; lia.
Qed.

(** X9.  For two [std::array]s of the same length and different element
    types, [convert] is [arrayCast]: the array specialization of
    [Converter] is selected and hands the array to [arrayCast] of the
    target element type. *)
Theorem convert_array_is_arrayCast (T U : ty) (len : N) (v : val) :
  T <> U ->
  convert (TArray T len) (TArray U len) v = arrayCast T U len v.
Proof.
  intros Hne. rewrite convert_unfold, (instantiates_arrays T U len Hne).
  unfold arrayCast, arrayCast_at.
  rewrite (proj2 (arrayCast_guard_ne T U) Hne). cbn [andb].
  rewrite convert_run_unfold. unfold Converter_call.
  rewrite (Converter_select_arrays T U len Hne). cbn [convert_elem_of].
  unfold on_value. destruct (instantiates T U); reflexivity.
Qed.

Lemma convert_array_is_arrayCast_witness :
  convert (TArray TDouble 3) (TArray TInt 3) (vint [1; 2; 3]) =
  arrayCast TDouble TInt 3 (vint [1; 2; 3]).
Proof.
  apply (convert_array_is_arrayCast TDouble TInt 3 (vint [1; 2; 3])). discriminate.
Defined.

Lemma Converter_select_from_container (To From : ty) :
  resizable From = true -> Converter_select From To = GeneralConverter.
Proof. destruct From; try discriminate; reflexivity. Qed.

(** X10.  Between two different [std::vector] or [std::list] types whose
    element types [B] (target) and [A] (source) are no such containers
    themselves, [convert] is [containerCast] when [convert<A, B>], the
    conversion of the elements in the reverse direction, instantiates,
    and is rejected otherwise: [Converter::call] names
    [containerCast<From>(To)] in its test. *)
Theorem convert_container_is_containerCast (To From B A : ty) (v : val) :
  elem_type To = Some B ->
  elem_type From = Some A ->
  resizable To = true ->
  resizable From = true ->
  deferred_assignable B = true ->
  deferred_assignable A = true ->
  To <> From ->
  convert To From v =
  if instantiates A B then containerCast To From v else IllFormed.
Proof.
  intros HB HA HrT HrF HaB HaA Hne.
  assert (HgTF : containerCast_guard To From = true)
    by (unfold containerCast_guard; rewrite HrT, HB, HA; exact HaB).
  assert (HgFT : containerCast_guard From To = true)
    by (unfold containerCast_guard; rewrite HrF, HB, HA; exact HaA).
  assert (Hsc : static_cast_valid From To = false).
  { destruct (static_cast_valid From To) eqn:E; [|reflexivity].
    exfalso. apply Hne. symmetry. apply static_cast_valid_resizable; assumption. }
  assert (Hbr : call_branch From To = ContainerCastBranch).
  { unfold call_branch, expressionValid, ValidStaticCast, ValidContainerCast.
    rewrite Hsc, HgFT. reflexivity. }
  assert (Hinst : instantiates To From = instantiates A B && instantiates B A).
  { unfold instantiates at 1. cbn [instantiates_fuel].
    rewrite (Converter_select_from_container To From HrF), Hbr, HB, HA, HgTF.
    rewrite andb_true_r.
    assert (ty_depth To = S (ty_depth B)) as ->
      by (destruct To; try discriminate; injection HB as ->; reflexivity).
    assert (ty_depth From = S (ty_depth A)) as ->
      by (destruct From; try discriminate; injection HA as ->; reflexivity).
    unfold instantiates. f_equal; apply instantiates_fuel_enough; lia. }
  rewrite convert_unfold, Hinst.
  destruct (instantiates A B); [|reflexivity]. cbn [andb].
  unfold containerCast, containerCast_at, containerCast_wf.
  rewrite HgTF, HB, HA. cbn [andb].
  destruct (instantiates B A); [|reflexivity].
  rewrite convert_run_unfold. unfold Converter_call.
  rewrite (Converter_select_from_container To From HrF), Hbr, HgTF. reflexivity.
Qed.

Lemma convert_container_is_containerCast_witness :
  convert (TList TDouble) (TVector TInt) (vint [4; 5]) =
    containerCast (TList TDouble) (TVector TInt) (vint [4; 5]) /\
  convert (TVector TInt) (TVector (TClass Celsius)) (VSeq [VObj Celsius 21]) = IllFormed.
Proof.
  split.
  - apply (convert_container_is_containerCast (TList TDouble) (TVector TInt) TDouble TInt
             (vint [4; 5])); try reflexivity; discriminate.
  - apply (convert_container_is_containerCast (TVector TInt) (TVector (TClass Celsius))
             TInt (TClass Celsius) (VSeq [VObj Celsius 21])); try reflexivity; discriminate.
Defined.

(** ** When [convert] returns *)

Lemma on_value_fails (f : failure) (v : val) :
  on_value (fun _ _ => Fails f) v = Fails f.
Proof. reflexivity. Qed.

(** X11.  [convert<To, From>] returns a value only if [Converter::call]
    selects a strategy and that strategy is applicable in both
    directions, from [From] to [To] and from [To] to [From]: the tests
    of [call] name the reverse conversion, and the body runs the forward
    one. *)
Theorem convert_returns_only_both_ways (To From : ty) (v w : val) :
  convert To From v = Returns w ->
  exists s,
    selected_strategy From To = Some s /\
    applicable s From To = true /\
    applicable s To From = true.
Proof.
  rewrite convert_unfold. destruct (instantiates To From) eqn:Hi; [|discriminate].
  rewrite convert_run_unfold. unfold Converter_call, selected_strategy.
  unfold instantiates in Hi. cbn [instantiates_fuel] in Hi.
  destruct (Converter_select From To) as [|F T len] eqn:Hsel.
  - destruct (call_branch From To) eqn:Hbr; intros H.
    + exists NativeCast. split; [reflexivity|]. split; [exact Hi|].
      unfold call_branch, expressionValid, ValidStaticCast in Hbr. cbn [applicable].
      destruct (static_cast_valid From To); [reflexivity|].
      destruct (ValidContainerCast From To); discriminate.
    + exists ContainerCast. split; [reflexivity|]. cbn [applicable]. split.
      * destruct (containerCast_guard To From); [reflexivity|discriminate].
      * unfold call_branch, expressionValid, ValidStaticCast, ValidContainerCast in Hbr.
        destruct (static_cast_valid From To); [discriminate|].
        destruct (containerCast_guard From To); [reflexivity|discriminate].
    + rewrite static_assert_condition_holds in H. discriminate.
  - intros _. apply Converter_select_array in Hsel as (-> & -> & Hg).
    exists ArrayCast. split; [reflexivity|]. cbn [applicable].
    rewrite !bool_decide_true by reflexivity. cbn [andb]. split; [exact Hg|].
    apply arrayCast_guard_ne. apply arrayCast_guard_ne in Hg. congruence.
Qed.

Lemma convert_returns_only_both_ways_witness :
  convert (TList TDouble) (TVector TInt) (vint [4; 5]) =
    Returns (VSeq [VDouble (double_of_int 4); VDouble (double_of_int 5)]) /\
  exists s,
    selected_strategy (TVector TInt) (TList TDouble) = Some s /\
    applicable s (TVector TInt) (TList TDouble) = true /\
    applicable s (TList TDouble) (TVector TInt) = true.
Proof.
  split; [vm_compute; reflexivity|].
  apply (convert_returns_only_both_ways (TList TDouble) (TVector TInt) (vint [4; 5])
           (VSeq [VDouble (double_of_int 4); VDouble (double_of_int 5)])).
  vm_compute. reflexivity.
Defined.

(** X12.  [convert] never turns a [std::array] into a [std::vector] or
    [std::list], nor one of these into a [std::array], whatever the
    element types and the value: no test of [Converter::call] holds in
    both directions for such a pair. *)
Theorem convert_between_array_and_container_never_returns
    (C A : ty) (len : N) (v w : val) :
  resizable C = true ->
  convert C (TArray A len) v <> Returns w /\
  convert (TArray A len) C v <> Returns w.
Proof.
  intros Hr. split.
  - rewrite convert_static_assert_branch; [discriminate| |].
    + destruct C; try discriminate; reflexivity.
    + unfold call_branch, expressionValid, ValidStaticCast, ValidContainerCast,
        static_cast_valid, containerCast_guard.
      destruct (decide (TArray A len = C)) as [<-|_]; [discriminate|].
      reflexivity.
  - rewrite convert_unfold. destruct (instantiates (TArray A len) C) eqn:Hi; [|discriminate].
    rewrite convert_run_unfold. unfold Converter_call.
    rewrite (Converter_select_from_container (TArray A len) C Hr).
    destruct (call_branch C (TArray A len)) eqn:Hbr.
    + exfalso. unfold call_branch, expressionValid, ValidStaticCast, static_cast_valid in Hbr.
      destruct (decide (C = TArray A len)) as [->|_]; [discriminate|].
      destruct C; try discriminate;
        destruct (ValidContainerCast _ _); discriminate.
    + discriminate.
    + rewrite static_assert_condition_holds. discriminate.
Qed.

Lemma convert_between_array_and_container_never_returns_witness :
  convert (TVector TInt) (TArray TInt 2) (vint [4; 5]) <> Returns (vint [4; 5]) /\
  convert (TArray TInt 2) (TVector TInt) (vint [4; 5]) <> Returns (vint [4; 5]).
Proof.
  apply (convert_between_array_and_container_never_returns (TVector TInt) TInt 2
           (vint [4; 5]) (vint [4; 5])).
  reflexivity.
Defined.

(** X20.  Whenever [Converter::call] selects no strategy for a pair of
    types, [convert] is accepted for the pair all the same and has
    undefined behaviour on every value: the [static_assert] of the last
    branch cannot fail, and the function ends without a [return]. *)
Theorem convert_without_selected_strategy (To From : ty) (v : val) :
  selected_strategy From To = None ->
  instantiates To From = true /\ convert To From v = Undefined.
Proof.
  unfold selected_strategy. intros H.
  destruct (Converter_select From To) eqn:Hsel; [|discriminate].
  destruct (call_branch From To) eqn:Hbr; try discriminate.
  split.
  - unfold instantiates. cbn [instantiates_fuel]. rewrite Hsel, Hbr. reflexivity.
  - apply convert_static_assert_branch; assumption.
Qed.

Lemma convert_without_selected_strategy_witness :
  selected_strategy TInt (TVector TInt) = None /\
  static_cast (TVector TInt) TInt (VInt 3) = Returns (vint [0; 0; 0]) /\
  instantiates (TVector TInt) TInt = true /\
  convert (TVector TInt) TInt (VInt 3) = Undefined.
Proof.
  split; [reflexivity|]. split; [reflexivity|].
  apply (convert_without_selected_strategy (TVector TInt) TInt (VInt 3)). reflexivity.
Defined.

Lemma resizable_not_assignable (A : ty) :
  resizable A = true -> deferred_assignable A = false.
Proof. destruct A; try discriminate; reflexivity. Qed.

(** X21.  Containers of containers: between two different
    [std::vector] or [std::list] types whose elements are [std::vector]s
    or [std::list]s themselves, [containerCast] is rejected (an element
    cannot be assigned from the deferred [convert]) and [convert] is
    accepted with undefined behaviour on every value. *)
Theorem nested_containers_do_not_convert (To From B A : ty) (v : val) :
  elem_type To = Some B ->
  elem_type From = Some A ->
  resizable To = true ->
  resizable From = true ->
  resizable B = true ->
  resizable A = true ->
  To <> From ->
  containerCast To From v = IllFormed /\ convert To From v = Undefined.
Proof.
  intros HB HA HrT HrF HrB HrA Hne. split.
  - unfold containerCast, on_value, containerCast_at, containerCast_wf, containerCast_guard.
    rewrite HrT, HB, HA, (resizable_not_assignable B HrB). reflexivity.
  - apply convert_static_assert_branch.
    + apply Converter_select_from_container, HrF.
    + unfold call_branch, expressionValid, ValidStaticCast, ValidContainerCast,
        containerCast_guard.
      rewrite HrF, HB, HA, (resizable_not_assignable A HrA).
      assert (static_cast_valid From To = false) as ->; [|reflexivity].
      unfold static_cast_valid.
      destruct (decide (From = To)) as [E|_]; [exfalso; apply Hne; symmetry; exact E|].
      destruct From; try discriminate; destruct To; try discriminate; reflexivity.
Qed.

Lemma nested_containers_do_not_convert_witness :
  convert (TVector TDouble) (TVector TInt) (vint [1]) =
    Returns (VSeq [VDouble (double_of_int 1)]) /\
  containerCast (TVector (TVector TDouble)) (TVector (TVector TInt))
    (VSeq [vint [1]]) = IllFormed /\
  convert (TVector (TVector TDouble)) (TVector (TVector TInt))
    (VSeq [vint [1]]) = Undefined.
Proof.
  split; [vm_compute; reflexivity|].
  apply (nested_containers_do_not_convert (TVector (TVector TDouble))
           (TVector (TVector TInt)) (TVector TDouble) (TVector TInt) (VSeq [vint [1]]));
    try reflexivity; discriminate.
Defined.

End ConvertProofs.

(** * Facts about the reference-iteration adapter *)

Module ReferenceIterationProofs.

Import ReferenceIteration.

(** ** [operator*] *)

Lemma cty_not_below (t u : cty) : (cty_depth u < cty_depth t)%nat -> t <> u.
Proof. intros H ->. lia. Qed.

Lemma converts_deeper (t u : cty) :
  (S (cty_depth u) < cty_depth t)%nat \/ (S (cty_depth t) < cty_depth u)%nat ->
  converts t u = false.
Proof.
  intros H. unfold converts. apply orb_false_iff. split.
  - apply bool_decide_eq_false. intros E.
    apply (f_equal cty_depth) in E.
    destruct t, u; simpl in *; lia.
  - destruct H as [H|H].
    + destruct t as [| |t|t|t]; simpl in *; try lia; try reflexivity.
      destruct t; simpl in *; try lia; reflexivity.
    + apply andb_false_iff. right.
      destruct u as [| |u|u|u]; simpl in *; try lia; try reflexivity.
      destruct u; simpl in *; try lia; reflexivity.
Qed.

(** The declared return type of [operator*] is never a reference to the
    pointee: it is the pointee type itself, returned by value, or still
    the reference to the pointer. *)
Lemma operator_star_type_not_reference (T : iterator_type) (P : cty) :
  yields_pointer T P ->
  operator_star_type T <> CRef P /\ operator_star_type T <> CRef (CConst P).
Proof.
  unfold yields_pointer, operator_star_type, decltype_call.
  destruct (star_type T) as [| |t|t|t]; simpl; try discriminate.
  - intros H. injection H as ->.
    split; apply not_eq_sym, cty_not_below; simpl; lia.
  - destruct t; simpl; try discriminate. intros H. injection H as ->.
    split; apply not_eq_sym, cty_not_below; simpl; lia.
  - destruct t as [| |t|t|t]; simpl; try discriminate.
    + intros H. injection H as ->.
      split; intros E; injection E as E; try discriminate E;
        apply (f_equal cty_depth) in E; simpl in E; lia.
    + destruct t; try discriminate. intros H. injection H as ->.
      split; intros E; injection E as E; try discriminate E;
        apply (f_equal cty_depth) in E; simpl in E; lia.
Qed.

Lemma converts_pointer_from_pointee (P : cty) : converts (CPtr P) P = false.
Proof.
  unfold converts. apply orb_false_iff. split; [|reflexivity].
  apply bool_decide_eq_false. intros E. apply (f_equal cty_depth) in E.
  destruct P; simpl in E; lia.
Qed.

Lemma bind_never {A B : Type} (m : outcome A) (k : A -> outcome B) (b : B) :
  (forall a, k a <> Returns b) -> m ≫= k <> Returns b.
Proof. intros H. destruct m; simpl; try discriminate. apply H. Qed.

Lemma return_ok_reference_to_itself (u : cty) :
  return_ok (CRef u) {| etype := CRef u; ecat := LValue |} = false.
Proof.
  unfold return_ok. cbn [etype ecat].
  assert (bool_decide (u = CRef u) = false) as Hu
    by (apply bool_decide_eq_false, not_eq_sym, cty_not_below; simpl; lia).
  destruct u as [| |w|w|w]; try (rewrite Hu; apply andb_false_r).
  apply converts_deeper. simpl. lia.
Qed.


Lemma by_value_never_reference (P : cty) (m : memory) (it : referenceIterator) (a : nat) :
  (if return_ok P {| etype := P; ecat := LValue |}
   then p ← element m (base it);
        b ← pointee m p;
        match P with
        | CRef _ => Returns (Reference b)
        | _ => v ← load m b; Returns (Temporary v)
        end
   else IllFormed) <> Returns (Reference a).
Proof.
  destruct P as [| |u|u|u];
    try (destruct (return_ok _ _); [|discriminate];
         apply bind_never; intros p; apply bind_never; intros b;
         apply bind_never; intros v; discriminate).
  rewrite return_ok_reference_to_itself. discriminate.
Qed.

(** Whatever the iterator over pointers, [operator*] never hands out the
    pointee itself. *)
Lemma operator_star_never_reference (T : iterator_type) (P : cty) (m : memory)
    (it : referenceIterator) (a : nat) :
  yields_pointer T P ->
  operator_star T m it <> Returns (Reference a).
Proof.
  unfold yields_pointer, operator_star, operator_star_type, operator_star_body,
    decltype_call, well_formed.
  destruct (star_type T) as [| |t|t|t]; simpl; try discriminate.
  - (* the iterator returns the pointer by value *)
    intros H. injection H as ->. apply by_value_never_reference.
  - destruct t; simpl; try discriminate. intros H. injection H as ->.
    apply by_value_never_reference.
  - (* the iterator returns a reference to the pointer *)
    destruct t as [| |t|t|t]; simpl; try discriminate.
    + intros H. injection H as ->.
      assert (bool_decide (CPtr P = P) = false) as ->
        by (apply bool_decide_eq_false, cty_not_below; simpl; lia).
      discriminate.
    + destruct t; try discriminate. intros H. injection H as ->.
      unfold deref_expr. cbn [etype strip_const].
      rewrite converts_pointer_from_pointee. discriminate.
Qed.

(** C2.  On [std::vector<int*>::iterator] the declared return type of
    [operator*] is [int*&], the returned expression is an [int], and the
    function is rejected when it is used: a loop over a view of the
    vector that dereferences its iterator is rejected at compile time,
    over a const view as over a non-const one.  On an iterator that
    yields its pointers by value [operator*] returns a copy of the
    pointee, and a loop over a const view yields three copies where the
    claim has three references. *)
Theorem operator_star_is_no_reference :
  yields_pointer (vector_iterator CInt) CInt /\
  operator_star_type (vector_iterator CInt) = CRef (CPtr CInt) /\
  operator_star_body (vector_iterator CInt) = Some {| etype := CInt; ecat := LValue |} /\
  operator_star (vector_iterator CInt) int_pointers
    (makeReferenceIterator {| coll := 0; pos := 0 |}) = IllFormed /\
  operator_star (generator_iterator CInt) int_pointers
    (makeReferenceIterator {| coll := 0; pos := 1 |}) = Returns (Temporary 20) /\
  iterate (vector_of CInt) {| object_ := 0 |} int_pointers = IllFormed /\
  iterate_const (vector_of CInt) {| object_ := 0 |} int_pointers = IllFormed /\
  iterate_const (generator_of CInt) {| object_ := 0 |} int_pointers =
    Returns [Temporary 10; Temporary 20; Temporary 30].
Proof. repeat split. Qed.

(** [operator->] of the adapter is well-formed on the standard
    iterators: it returns the stored pointer by reference. *)
Lemma operator_arrow_vector_iterator (P : cty) :
  well_formed (operator_arrow_type (vector_iterator P))
    (operator_arrow_body (vector_iterator P)) = true.
Proof.
  unfold well_formed, operator_arrow_type, operator_arrow_body, decltype_call.
  simpl. rewrite !bool_decide_eq_true_2 by reflexivity. reflexivity.
Qed.

(** ** [begin] and [end] *)

Lemma begin_undefined (T : collection_type) (v : referenceIteration) (m : memory) :
  begin T v m = Undefined.
Proof. unfold begin, C_begin. destruct (collections m !! object_ v); reflexivity. Qed.

Lemma end_undefined (T : collection_type) (v : referenceIteration) (m : memory) :
  end_ T v m = Undefined.
Proof. unfold end_, C_end. destruct (collections m !! object_ v); reflexivity. Qed.

(** A loop over a non-const view never gets anywhere: it is rejected
    when [operator*] is, and calls [begin()] otherwise. *)
Lemma iterate_never_returns (T : collection_type) (v : referenceIteration) (m : memory) :
  iterate T v m =
  if well_formed (operator_star_type (iterator_of T)) (operator_star_body (iterator_of T))
  then Undefined
  else IllFormed.
Proof. unfold iterate. rewrite begin_undefined. reflexivity. Qed.

Lemma adapt_same (T : iterator_type) (it : iter) :
  adapt T T it = Returns (makeReferenceIterator it).
Proof. unfold adapt. destruct (decide (T = T)); [reflexivity|contradiction]. Qed.

Lemma adapt_other (have want : iterator_type) (it : iter) :
  have <> want -> adapt have want it = IllFormed.
Proof. intros H. unfold adapt. destruct (decide (have = want)); [contradiction|reflexivity]. Qed.

(** C3.  For every wrapped collection the non-const [begin()] and
    [end()] evaluate the forwarded call, discard it and end without a
    [return], which is undefined behaviour and yields no iterator at
    all.  Of the const overloads, [cbegin()] and [cend()] return the
    forwarded iterator.  [begin() const] and [end() const] forward
    [begin()] and [end()] of the collection, where [cbegin()] and
    [cend()] are due: they return the forwarded iterator only when the
    collection's [iterator] is the very type of its [const_iterator], and
    are rejected at compile time otherwise. *)
Theorem begin_end_overloads (T : collection_type) (v : referenceIteration)
    (m : memory) (l : collection) :
  collections m !! object_ v = Some l ->
  begin T v m = Undefined /\
  end_ T v m = Undefined /\
  cbegin T v m = Returns (forwarded_begin v) /\
  cend T v m = Returns (forwarded_end v l) /\
  (iterator_of T = const_iterator_of T ->
   begin_const T v m = Returns (forwarded_begin v) /\
   end_const T v m = Returns (forwarded_end v l)) /\
  (iterator_of T <> const_iterator_of T ->
   begin_const T v m = IllFormed /\
   end_const T v m = IllFormed).
Proof.
  intros Hl. split; [apply begin_undefined|]. split; [apply end_undefined|].
  unfold cbegin, cend, begin_const, end_const, forwarded_begin, forwarded_end,
    C_begin, C_end.
  rewrite Hl. simpl. rewrite !adapt_same.
  split; [reflexivity|]. split; [reflexivity|]. split.
  - intros ->. rewrite !adapt_same. split; reflexivity.
  - intros Hne. rewrite !(adapt_other _ _ _ Hne). split; reflexivity.
Qed.

Lemma begin_end_overloads_witness :
  begin (vector_of CInt) {| object_ := 0 |} int_pointers = Undefined /\
  cbegin (vector_of CInt) {| object_ := 0 |} int_pointers =
    Returns (makeReferenceIterator {| coll := 0; pos := 0 |}) /\
  begin_const (vector_of CInt) {| object_ := 0 |} int_pointers = IllFormed /\
  end_const (vector_of CInt) {| object_ := 0 |} int_pointers = IllFormed /\
  begin_const (unordered_set_of CInt) {| object_ := 0 |} int_pointers = IllFormed /\
  begin_const (const_vector_of CInt) {| object_ := 0 |} int_pointers =
    Returns (makeReferenceIterator {| coll := 0; pos := 0 |}).
Proof.
  destruct (begin_end_overloads (vector_of CInt) {| object_ := 0 |} int_pointers
              [Some 0; Some 1; Some 2]%nat eq_refl)
    as (Hb & _ & Hc & _ & _ & Hvec).
  destruct (begin_end_overloads (unordered_set_of CInt) {| object_ := 0 |} int_pointers
              [Some 0; Some 1; Some 2]%nat eq_refl)
    as (_ & _ & _ & _ & _ & Hset).
  destruct (begin_end_overloads (const_vector_of CInt) {| object_ := 0 |} int_pointers
              [Some 0; Some 1; Some 2]%nat eq_refl)
    as (_ & _ & _ & _ & Hconst & _).
  destruct Hvec as [Hvb Hve]; [discriminate|].
  destruct Hset as [Hsb _]; [discriminate|].
  destruct (Hconst eq_refl) as [Hcb _].
  split; [exact Hb|]. split; [exact Hc|]. split; [exact Hvb|]. split; [exact Hve|].
  split; [exact Hsb|exact Hcb].
Defined.

(** ** [makeReferenceIteration] *)

(** C9.  [makeReferenceIteration] is rejected for every collection type:
    its body builds a [referenceIteration<T>] where the declared return
    type is [referenceIterator<T>], and for a deduced [T] it hands a
    const object to a constructor that takes a [T&]. *)
Theorem makeReferenceIteration_ill_formed (T_const : bool) (obj : nat) :
  makeReferenceIteration T_const obj = IllFormed.
Proof. destruct T_const; reflexivity. Qed.

(** ** Walking a const view *)

Lemma visit_never_reference (I : iterator_type) (P : cty) (m : memory) :
  yields_pointer I P ->
  forall (n : nat) (it : iter) (xs : list access),
    visit I m n it = Returns xs ->
    forall x, x ∈ xs -> exists z, x = Temporary z.
Proof.
  intros HI. induction n as [|n IH]; intros it xs H x Hx.
  - injection H as <-. apply elem_of_nil in Hx. destruct Hx.
  - cbn [visit] in H.
    apply obind_returns in H as (y & Hy & H).
    apply obind_returns in H as (ys & Hys & H). injection H as <-.
    apply elem_of_cons in Hx as [->|Hx].
    + destruct y as [a|z]; [|eauto].
      exfalso. exact (operator_star_never_reference I P m _ a HI Hy).
    + eapply IH; eassumption.
Qed.

(** X13.  Whatever the collection type, as long as its const_iterator
    yields pointers (by reference or by value, const or not): a loop over
    a const view never hands out a reference to a pointee.  Everything
    it yields is a temporary that holds a copy. *)
Theorem iterate_const_never_reference (T : collection_type) (P : cty)
    (v : referenceIteration) (m : memory) (xs : list access) :
  yields_pointer (const_iterator_of T) P ->
  iterate_const T v m = Returns xs ->
  forall x, x ∈ xs -> exists z, x = Temporary z.
Proof.
  intros HT H. unfold iterate_const in H.
  destruct (well_formed _ _); [|discriminate].
  apply obind_returns in H as (b & _ & H).
  apply obind_returns in H as (e & _ & H).
  eapply visit_never_reference; eassumption.
Qed.

Lemma iterate_const_never_reference_witness :
  yields_pointer (generator_iterator CInt) CInt /\
  forall x, x ∈ [Temporary 10; Temporary 20; Temporary 30] -> exists z, x = Temporary z.
Proof.
  split; [reflexivity|].
  apply (iterate_const_never_reference (generator_of CInt) CInt {| object_ := 0 |} int_pointers); reflexivity.
Defined.

Lemma operator_star_by_value (I : iterator_type) (P : cty) (m : memory) (it : iter) :
  star_type I = CPtr P ->
  (forall u, P <> CRef u) ->
  operator_star I m {| base := it |} =
  (p ← element m it; a ← pointee m p; z ← load m a; Returns (Temporary z)).
Proof.
  intros HI HP. unfold operator_star, operator_star_type, operator_star_body,
    decltype_call, well_formed.
  rewrite HI. cbn [remove_pointer call_expr deref_expr etype strip_const base].
  assert (return_ok P {| etype := P; ecat := LValue |} = true) as ->.
  { unfold return_ok, converts. cbn [etype].
    destruct P; try (rewrite bool_decide_true by reflexivity; reflexivity).
    exfalso. eapply HP. reflexivity. }
  destruct (element m it) as [p|]; [|reflexivity]. cbn [mbind outcome_bind obind].
  destruct (pointee m p) as [a|]; [|reflexivity]. cbn [mbind outcome_bind obind].
  destruct P; try reflexivity. exfalso. eapply HP. reflexivity.
Qed.

Lemma visit_by_value (I : iterator_type) (P : cty) (m : memory) (c : nat) (l : collection) :
  star_type I = CPtr P ->
  (forall u, P <> CRef u) ->
  collections m !! c = Some l ->
  forall (rest : list pointer) (zs : list Z) (pre : list pointer),
    l = pre ++ rest ->
    Forall2 (points_to m) rest zs ->
    visit I m (length rest) {| coll := c; pos := length pre |} =
    Returns (map Temporary zs).
Proof.
  intros HI HP Hc. induction rest as [|p rest IH]; intros zs pre Hl Hzs.
  - apply Forall2_nil_inv_l in Hzs as ->. reflexivity.
  - apply Forall2_cons_inv_l in Hzs as (z & zs' & (a & -> & Ha) & Hzs & ->).
    cbn [visit length coll pos].
    rewrite (operator_star_by_value I P m _ HI HP).
    unfold element. cbn [coll pos]. rewrite Hc, Hl.
    rewrite lookup_app_r by lia. rewrite Nat.sub_diag. cbn [lookup list_lookup].
    cbn [mbind outcome_bind obind]. unfold pointee, load.
    destruct (decide (a < length (pointees m))%nat) as [_|Hn];
      [|exfalso; apply Hn; eapply lookup_lt_Some, Ha].
    cbn [mbind outcome_bind obind]. rewrite Ha. cbn [mbind outcome_bind obind].
    replace (S (length pre)) with (length (pre ++ [Some a]))
      by (rewrite length_app; simpl; lia).
    rewrite (IH zs' (pre ++ [Some a])).
    + reflexivity.
    + rewrite Hl, <- app_assoc. reflexivity.
    + exact Hzs.
Qed.

Lemma cbegin_returns (T : collection_type) (v : referenceIteration) (m : memory)
    (l : collection) :
  collections m !! object_ v = Some l ->
  cbegin T v m = Returns (forwarded_begin v) /\
  cend T v m = Returns (forwarded_end v l).
Proof.
  intros Hl. unfold cbegin, cend, C_begin, C_end. cbn [run_body].
  rewrite Hl. cbn [mbind outcome_bind obind]. rewrite !adapt_same. split; reflexivity.
Qed.

(** X14.  For a collection whose const_iterator hands out its pointers
    by value, a loop over a const view of [N] valid pointers yields
    exactly [N] values, in the order of the collection, each a copy of
    what the pointer at that position points to. *)
Theorem iterate_const_by_value (T : collection_type) (P : cty)
    (v : referenceIteration) (m : memory) (l : collection) (zs : list Z) :
  star_type (const_iterator_of T) = CPtr P ->
  (forall u, P <> CRef u) ->
  collections m !! object_ v = Some l ->
  Forall2 (points_to m) l zs ->
  iterate_const T v m = Returns (map Temporary zs) /\
  length (map Temporary zs) = length l.
Proof.
  intros HT HP Hl Hzs. split.
  - unfold iterate_const.
    assert (well_formed (operator_star_type (const_iterator_of T))
              (operator_star_body (const_iterator_of T)) = true) as ->.
    { unfold operator_star_type, operator_star_body, decltype_call, well_formed.
      rewrite HT. cbn [remove_pointer call_expr deref_expr etype strip_const].
      unfold return_ok, converts. cbn [etype].
      destruct P; try (rewrite bool_decide_true by reflexivity; reflexivity).
      exfalso. eapply HP. reflexivity. }
    destruct (cbegin_returns T v m l Hl) as [-> ->].
    cbn [mbind outcome_bind obind forwarded_begin forwarded_end makeReferenceIterator
         base pos].
    rewrite Nat.sub_0_r.
    apply (visit_by_value _ P m (object_ v) l HT HP Hl l zs []); [reflexivity|exact Hzs].
  - rewrite length_map. symmetry. eapply Forall2_length, Hzs.
Qed.

Lemma iterate_const_by_value_witness :
  iterate_const (generator_of CInt) {| object_ := 0 |} int_pointers =
    Returns [Temporary 10; Temporary 20; Temporary 30] /\
  length [Temporary 10; Temporary 20; Temporary 30] = 3%nat.
Proof.
  apply (iterate_const_by_value (generator_of CInt) CInt {| object_ := 0 |} int_pointers [Some 0; Some 1; Some 2]%nat [10; 20; 30]).
  - reflexivity.
  - discriminate.
  - reflexivity.
  - repeat constructor; eexists; split; reflexivity.
Defined.

Lemma visit_first_invalid (I : iterator_type) (P : cty) (m : memory) (c : nat)
    (l : collection) :
  star_type I = CPtr P ->
  (forall u, P <> CRef u) ->
  collections m !! c = Some l ->
  forall (good : list pointer) (zs : list Z) (pre : list pointer)
         (p : pointer) (rest : list pointer),
    l = pre ++ good ++ p :: rest ->
    Forall2 (points_to m) good zs ->
    pointee m p = Undefined ->
    visit I m (length (good ++ p :: rest)) {| coll := c; pos := length pre |} = Undefined.
Proof.
  intros HI HP Hc. induction good as [|q good IH]; intros zs pre p rest Hl Hzs Hp.
  - cbn [app length visit].
    rewrite (operator_star_by_value I P m _ HI HP).
    unfold element. cbn [coll pos]. rewrite Hc, Hl.
    rewrite lookup_app_r by lia. rewrite Nat.sub_diag. cbn [app lookup list_lookup].
    cbn [mbind outcome_bind obind]. rewrite Hp. reflexivity.
  - apply Forall2_cons_inv_l in Hzs as (z & zs' & (a & -> & Ha) & Hzs & ->).
    cbn [app length visit coll pos].
    rewrite (operator_star_by_value I P m _ HI HP).
    unfold element. cbn [coll pos]. rewrite Hc, Hl.
    rewrite lookup_app_r by lia. rewrite Nat.sub_diag. cbn [app lookup list_lookup].
    cbn [mbind outcome_bind obind]. unfold pointee at 1, load.
    destruct (decide (a < length (pointees m))%nat) as [_|Hn];
      [|exfalso; apply Hn; eapply lookup_lt_Some, Ha].
    cbn [mbind outcome_bind obind]. rewrite Ha. cbn [mbind outcome_bind obind].
    replace (S (length pre)) with (length (pre ++ [Some a]))
      by (rewrite length_app; simpl; lia).
    rewrite (IH zs' (pre ++ [Some a]) p rest); try assumption.
    + reflexivity.
    + rewrite Hl, <- app_assoc. reflexivity.
Qed.

(** X15.  A null pointer in the collection, or one that points to no
    object, makes the loop over a by-value const view undefined as soon
    as it is reached: nothing is returned for the positions before
    it. *)
Theorem iterate_const_invalid_pointer (T : collection_type) (P : cty)
    (v : referenceIteration) (m : memory) (good : list pointer) (zs : list Z)
    (p : pointer) (rest : list pointer) :
  star_type (const_iterator_of T) = CPtr P ->
  (forall u, P <> CRef u) ->
  collections m !! object_ v = Some (good ++ p :: rest) ->
  Forall2 (points_to m) good zs ->
  pointee m p = Undefined ->
  iterate_const T v m = Undefined.
Proof.
  intros HT HP Hl Hzs Hp. unfold iterate_const.
  assert (well_formed (operator_star_type (const_iterator_of T))
            (operator_star_body (const_iterator_of T)) = true) as ->.
  { unfold operator_star_type, operator_star_body, decltype_call, well_formed.
    rewrite HT. cbn [remove_pointer call_expr deref_expr etype strip_const].
    unfold return_ok, converts. cbn [etype].
    destruct P; try (rewrite bool_decide_true by reflexivity; reflexivity).
    exfalso. eapply HP. reflexivity. }
  destruct (cbegin_returns T v m _ Hl) as [-> ->].
  cbn [mbind outcome_bind obind forwarded_begin forwarded_end makeReferenceIterator
       base pos].
  rewrite Nat.sub_0_r.
  apply (visit_first_invalid _ P m (object_ v) _ HT HP Hl good zs [] p rest);
    [reflexivity|exact Hzs|exact Hp].
Qed.

Lemma iterate_const_invalid_pointer_witness :
  iterate_const (generator_of CInt) {| object_ := 0 |}
    {| collections := [[Some 0%nat] ++ None :: [Some 1%nat]]; pointees := [10; 20] |} =
  Undefined.
Proof.
  apply (iterate_const_invalid_pointer (generator_of CInt) CInt {| object_ := 0 |}
           {| collections := [[Some 0%nat] ++ None :: [Some 1%nat]]; pointees := [10; 20] |}
           [Some 0%nat] [10] None [Some 1%nat]).
  - reflexivity.
  - discriminate.
  - reflexivity.
  - repeat constructor; eexists; split; reflexivity.
  - reflexivity.
Defined.

(** ** [operator->] and [operator*] on the iterators of a [std::vector] *)

Lemma return_ok_pointer_from_pointee (P : cty) :
  return_ok (CRef (CPtr P)) {| etype := P; ecat := LValue |} = false /\
  return_ok (CRef (CConst (CPtr P))) {| etype := P; ecat := LValue |} = false.
Proof.
  split.
  - unfold return_ok. cbn [etype ecat].
    rewrite (bool_decide_false (CPtr P = P)); [apply andb_false_r|].
    apply cty_not_below. simpl. lia.
  - unfold return_ok. cbn [etype]. apply converts_pointer_from_pointee.
Qed.

(** X16.  On both iterator types of a [std::vector] of pointers to any
    type [P], [operator->] of the adapter is accepted and evaluates to
    the pointer stored at the position, and [operator*] is rejected; so
    is every loop over a const view that dereferences its iterator, even
    on an empty vector. *)
Theorem vector_iterators_arrow_and_star (P : cty) (m : memory) (it : referenceIterator)
    (v : referenceIteration) :
  operator_arrow (vector_iterator P) m it = element m (base it) /\
  operator_arrow (vector_const_iterator P) m it = element m (base it) /\
  operator_star (vector_iterator P) m it = IllFormed /\
  operator_star (vector_const_iterator P) m it = IllFormed /\
  iterate_const (vector_of P) v m = IllFormed /\
  iterate_const (const_vector_of P) v m = IllFormed.
Proof.
  destruct (return_ok_pointer_from_pointee P) as [Hs Hc].
  assert (Ha : well_formed (operator_arrow_type (vector_iterator P))
                 (operator_arrow_body (vector_iterator P)) = true).
  { unfold well_formed, operator_arrow_type, operator_arrow_body, decltype_call.
    cbn. rewrite !bool_decide_true by reflexivity. reflexivity. }
  assert (Hac : well_formed (operator_arrow_type (vector_const_iterator P))
                  (operator_arrow_body (vector_const_iterator P)) = true).
  { unfold well_formed, operator_arrow_type, operator_arrow_body, decltype_call.
    cbn. unfold converts. cbn. rewrite bool_decide_true by reflexivity. reflexivity. }
  assert (Hws : well_formed (operator_star_type (vector_iterator P))
                  (operator_star_body (vector_iterator P)) = false) by exact Hs.
  assert (Hwc : well_formed (operator_star_type (vector_const_iterator P))
                  (operator_star_body (vector_const_iterator P)) = false) by exact Hc.
  unfold operator_arrow, operator_star, iterate_const.
  cbn [const_iterator_of vector_of const_vector_of].
  rewrite Ha, Hac, Hws, Hwc. repeat split.
Qed.

(** ** The reverse entry points *)

Lemma reverse_adapt_same (s : standard) (I : iterator_type) (r : reverse_iterator) :
  reverse_adapt s I I r = Returns r.
Proof. unfold reverse_adapt. destruct (decide (I = I)); [reflexivity|contradiction]. Qed.

Lemma rbegin_rend_returns (s : standard) (T : collection_type) (v : referenceIteration)
    (m : memory) (l : collection) :
  collections m !! object_ v = Some l ->
  rbegin s T v m = Returns {| current := {| coll := object_ v; pos := length l |} |} /\
  rend s T v m = Returns {| current := {| coll := object_ v; pos := 0 |} |}.
Proof.
  intros Hl. unfold rbegin, rend, C_rbegin, C_rend, C_begin, C_end. cbn [run_body].
  rewrite Hl. cbn [mbind outcome_bind obind]. rewrite !reverse_adapt_same.
  split; reflexivity.
Qed.

(** X17.  Unlike [begin()] and [end()], which end without a [return],
    the reverse entry points [rbegin()], [rend()], [crbegin()] and
    [crend()] return the reverse iterators of the collection: [rbegin]
    and [crbegin] wrap the end of the collection, [rend] and [crend] its
    beginning.  This holds for every collection type and under both
    language standards. *)
Theorem reverse_entry_points_forward (s : standard) (T : collection_type)
    (v : referenceIteration) (m : memory) (l : collection) :
  collections m !! object_ v = Some l ->
  rbegin s T v m = Returns {| current := {| coll := object_ v; pos := length l |} |} /\
  rend s T v m = Returns {| current := {| coll := object_ v; pos := 0 |} |} /\
  crbegin s T v m = Returns {| current := {| coll := object_ v; pos := length l |} |} /\
  crend s T v m = Returns {| current := {| coll := object_ v; pos := 0 |} |}.
Proof.
  intros Hl. destruct (rbegin_rend_returns s T v m l Hl) as [Hb He].
  split; [exact Hb|]. split; [exact He|].
  unfold crbegin, crend, C_rbegin, C_rend, C_begin, C_end. cbn [run_body].
  rewrite Hl. cbn [mbind outcome_bind obind]. rewrite !reverse_adapt_same.
  split; reflexivity.
Qed.

Lemma reverse_entry_points_forward_witness :
  rbegin Cpp20 (vector_of CInt) {| object_ := 0 |} int_pointers =
    Returns {| current := {| coll := 0; pos := 3 |} |} /\
  crend Cpp20 (vector_of CInt) {| object_ := 0 |} int_pointers =
    Returns {| current := {| coll := 0; pos := 0 |} |}.
Proof.
  destruct (reverse_entry_points_forward Cpp20 (vector_of CInt) {| object_ := 0 |}
              int_pointers [Some 0; Some 1; Some 2]%nat eq_refl) as (Hb & _ & _ & He).
  split; [exact Hb|exact He].
Defined.

Lemma reverse_walk_spec (s : standard) (I : iterator_type) (m : memory) (c : nat)
    (l : collection) :
  well_formed (reverse_star_type s I) (reverse_star_body I) = true ->
  collections m !! c = Some l ->
  forall (pre rest : list pointer),
    l = pre ++ rest ->
    reverse_walk s I m (length pre) {| current := {| coll := c; pos := length pre |} |} =
    Returns (rev pre).
Proof.
  intros Hwf Hc pre. induction pre as [|p pre IH] using rev_ind; intros rest Hl.
  - reflexivity.
  - rewrite length_app. cbn [length]. rewrite Nat.add_1_r.
    cbn [reverse_walk]. unfold reverse_star, reverse_next, element. rewrite Hwf.
    cbn [current pos coll Nat.pred]. rewrite Hc, Hl, <- app_assoc.
    rewrite lookup_app_r by lia. rewrite Nat.sub_diag. cbn [app lookup list_lookup].
    cbn [mbind outcome_bind obind].
    rewrite (IH (p :: rest)) by (rewrite Hl, <- app_assoc; reflexivity).
    cbn [mbind outcome_bind obind]. rewrite rev_app_distr. reflexivity.
Qed.

(** The dereference of a reverse iterator is accepted for an iterator
    that returns a reference to its pointer under both standards, and for
    one that returns its pointer by value under C++17 only. *)
Lemma reverse_star_by_reference (s : standard) (I : iterator_type) (P : cty) :
  star_type I = CRef (CPtr P) \/ star_type I = CRef (CConst (CPtr P)) ->
  well_formed (reverse_star_type s I) (reverse_star_body I) = true.
Proof.
  intros [H|H]; destruct s;
    unfold well_formed, reverse_star_type, reverse_star_body, operator_star_type,
      decltype_call; rewrite H; cbn; unfold converts; cbn;
    rewrite ?bool_decide_true by reflexivity; reflexivity.
Qed.

Lemma reverse_star_by_value (I : iterator_type) (P : cty) :
  star_type I = CPtr P ->
  (forall u, P <> CRef u) ->
  well_formed (reverse_star_type Cpp17 I) (reverse_star_body I) = true /\
  well_formed (reverse_star_type Cpp20 I) (reverse_star_body I) = false.
Proof.
  intros H HP. unfold well_formed, reverse_star_type, reverse_star_body,
    operator_star_type, decltype_call. rewrite H.
  cbn [call_expr remove_pointer]. split.
  - unfold return_ok, converts. cbn [etype].
    rewrite bool_decide_true by reflexivity. reflexivity.
  - assert (Hne : strip_const P <> CPtr P).
    { destruct P; cbn [strip_const]; try discriminate;
        intros E; apply (f_equal cty_depth) in E; simpl in E; lia. }
    unfold return_ok, converts. cbn [etype strip_const is_arith].
    rewrite andb_false_r, orb_false_r.
    destruct P; try (apply bool_decide_false; exact Hne).
    exfalso. eapply HP. reflexivity.
Qed.

(** X18.  Iterating a view in reverse, from [rbegin()] to [rend()],
    yields the pointers of the collection themselves, last to first,
    whenever the loop is accepted: the reverse iterators dereference with
    the [operator*] of the wrapped collection iterator, so the adapter's
    own [operator*] is never run and nothing is dereferenced for the
    caller.  The loop is accepted under both standards for a collection
    whose iterator returns a reference to the pointer, const or not, as
    those of [std::vector] do, and under C++17 for one whose iterator
    returns the pointer by value.  Under C++20 the loop over a by-value
    iterator is rejected at compile time: [std::reverse_iterator] then
    declares its [operator*] with the type of the adapter's own
    [operator*], the pointee type, and returns a pointer. *)
Theorem reverse_iterate_yields_pointers (s : standard) (T : collection_type) (P : cty)
    (v : referenceIteration) (m : memory) (l : collection) :
  collections m !! object_ v = Some l ->
  (star_type (iterator_of T) = CRef (CPtr P) \/
   star_type (iterator_of T) = CRef (CConst (CPtr P)) \/
   (star_type (iterator_of T) = CPtr P /\ (forall u, P <> CRef u) /\ s = Cpp17) ->
   reverse_iterate s T v m = Returns (rev l)) /\
  (star_type (iterator_of T) = CPtr P -> (forall u, P <> CRef u) ->
   reverse_iterate Cpp20 T v m = IllFormed).
Proof.
  intros Hl. split.
  - intros HT.
    assert (Hwf : well_formed (reverse_star_type s (iterator_of T))
                    (reverse_star_body (iterator_of T)) = true).
    { destruct HT as [H|[H|(H & HP & ->)]].
      - apply (reverse_star_by_reference s _ P). left. exact H.
      - apply (reverse_star_by_reference s _ P). right. exact H.
      - apply (reverse_star_by_value _ P H HP). }
    unfold reverse_iterate. rewrite Hwf.
    destruct (rbegin_rend_returns s T v m l Hl) as [-> ->].
    cbn [mbind outcome_bind obind current pos]. rewrite Nat.sub_0_r.
    apply (reverse_walk_spec s _ m (object_ v) l Hwf Hl l []). symmetry. apply app_nil_r.
  - intros H HP. unfold reverse_iterate.
    destruct (reverse_star_by_value _ P H HP) as [_ ->]. reflexivity.
Qed.

Lemma reverse_iterate_yields_pointers_witness :
  reverse_iterate Cpp20 (vector_of CInt) {| object_ := 0 |} int_pointers =
    Returns [Some 2; Some 1; Some 0]%nat /\
  reverse_iterate Cpp17 (generator_of CInt) {| object_ := 0 |} int_pointers =
    Returns [Some 2; Some 1; Some 0]%nat /\
  reverse_iterate Cpp20 (generator_of CInt) {| object_ := 0 |} int_pointers = IllFormed.
Proof.
  destruct (reverse_iterate_yields_pointers Cpp20 (vector_of CInt) CInt {| object_ := 0 |}
              int_pointers [Some 0; Some 1; Some 2]%nat eq_refl) as [Hvec _].
  destruct (reverse_iterate_yields_pointers Cpp17 (generator_of CInt) CInt
              {| object_ := 0 |} int_pointers [Some 0; Some 1; Some 2]%nat eq_refl)
    as [Hgen Hrej].
  split; [apply Hvec; left; reflexivity|].
  split; [apply Hgen; right; right; repeat split; discriminate|].
  apply Hrej; [reflexivity|discriminate].
Defined.



End ReferenceIterationProofs.
